(** * kmip-go, package [ttlv]: the name registry ([ttlv/registry.go])

    A shallow embedding of [Enum] and [Registry] and the properties of
    registration, lookup, listing and tag formatting.

    Conventions of the embedding.
    - [uint32] values, [Tag]s and [Type]s are natural numbers ([N]); [registry.go]
      performs no arithmetic on them, only the widening conversions
      [uint32(t)], which are the identity.
    - A Go map is [gomap K V := option (gmap K V)]: [None] is the nil map.
      Reading a nil map finds nothing, writing to it panics.
    - A panic is the [None] of the [option] monad; a method with a pointer
      receiver takes the pointee, or [None] for the nil pointer.
    - [kmiputil.NormalizeName] lives in another package; everything that
      depends on it is parameterised by the class [Normalizer]. *)

From Stdlib Require Import NArith Ascii String.
From stdpp Require Import base option list sorting gmap strings.

Local Open Scope string_scope.
Local Open Scope list_scope.
Local Open Scope N_scope.

(** ** Go values *)

Abbreviation uint32 := N.
Abbreviation Tag := N.
Abbreviation Type_ := N.

(** [TagNone], the reserved "unknown/absent" tag. *)
Definition TagNone : Tag := 0.

Definition uint32_of_Tag (t : Tag) : uint32 := t.
Definition uint32_of_Type (t : Type_) : uint32 := t.

(** ** Go maps *)

Module GoMap.
Section gomap.
Context {K : Type} `{Countable K} {V : Type}.

Definition t := option (gmap K V).

(** The nil map, the zero value of a map type. *)
Definition nil : t := None.

(** [map[K]V{}] *)
Definition make : t := Some ∅.

(** [m == nil] *)
Definition is_nil (m : t) : bool :=
  match m with None => true | Some _ => false end.

(** [v, ok := m[k]]: [None] when [ok] is false. *)
Definition get (m : t) (k : K) : option V :=
  match m with None => None | Some g => g !! k end.

(** [m[k] = v]: panics on the nil map. *)
Definition set (m : t) (k : K) (v : V) : option t :=
  match m with None => None | Some g => Some (Some (<[k := v]> g)) end.

(** The keys a [for k := range m] loop visits, in one of the orders it
    may visit them. *)
Definition keys (m : t) : list K :=
  match m with None => [] | Some g => (map_to_list g).*1 end.

End gomap.
Arguments t K {_ _} V.
End GoMap.

Abbreviation gomap := GoMap.t.

(** ** Name normalisation

    [NormalizeName] forwards to [kmiputil.NormalizeName], which is outside
    this package: it is a parameter of the development. *)

Class Normalizer := kmiputil_NormalizeName : string → string.

Definition NormalizeName `{Normalizer} (s : string) : string :=
  kmiputil_NormalizeName s.

(** ** Enum *)

Record Enum := mkEnum {
  valuesToName : gomap uint32 string;
  valuesToCanonicalName : gomap uint32 string;
  nameToValue : gomap string uint32;
  canonicalNamesToValue : gomap string uint32;
  bitMask : bool
}.

Definition NewEnum : Enum :=
  mkEnum GoMap.nil GoMap.nil GoMap.nil GoMap.nil false.

Definition NewBitmask : Enum :=
  mkEnum GoMap.nil GoMap.nil GoMap.nil GoMap.nil true.

(** [func (e *Enum) RegisterValue(v uint32, name string)] on the pointee;
    [None] is a panic. *)
Definition RegisterValue `{Normalizer}
    (e : Enum) (v : uint32) (name : string) : option Enum :=
  let nn := NormalizeName name in
  let e :=
    if GoMap.is_nil (valuesToName e)
    then mkEnum GoMap.make GoMap.make GoMap.make GoMap.make (bitMask e)
    else e in
  m1 ← GoMap.set (valuesToName e) v nn;
  m2 ← GoMap.set (nameToValue e) nn v;
  m3 ← GoMap.set (valuesToCanonicalName e) v name;
  m4 ← GoMap.set (canonicalNamesToValue e) name v;
  Some (mkEnum m1 m3 m2 m4 (bitMask e)).

(** A [*Enum] receiver: [None] is the nil pointer. *)
Definition RegisterValue_ptr `{Normalizer}
    (e : option Enum) (v : uint32) (name : string) : option Enum :=
  e' ← e; RegisterValue e' v name.

(** The result of [name, ok := m[v]; return name, ok]. *)
Definition comma_ok {A} (zero : A) (o : option A) : A * bool :=
  match o with Some a => (a, true) | None => (zero, false) end.

Definition Name (e : option Enum) (v : uint32) : string * bool :=
  match e with
  | None => ("", false)
  | Some e => comma_ok "" (GoMap.get (valuesToName e) v)
  end.

Definition CanonicalName (e : option Enum) (v : uint32) : string * bool :=
  match e with
  | None => ("", false)
  | Some e => comma_ok "" (GoMap.get (valuesToCanonicalName e) v)
  end.

Definition Value (e : option Enum) (name : string) : uint32 * bool :=
  match e with
  | None => (0, false)
  | Some e =>
      let '(v, ok) := comma_ok 0 (GoMap.get (nameToValue e) name) in
      if negb ok
      then comma_ok 0 (GoMap.get (canonicalNamesToValue e) name)
      else (v, ok)
  end.

Definition Bitmask (e : option Enum) : bool :=
  match e with
  | None => false
  | Some e => bitMask e
  end.

(** ** [uint32Slice] and sorting *)

Abbreviation uint32Slice := (list uint32).

Module uint32Slice.
(** [len(p)] *)
Definition Len (p : uint32Slice) : nat := length p.

(** [p[i] < p[j]]; an index out of range panics. *)
Definition Less (p : uint32Slice) (i j : nat) : option bool :=
  a ← p !! i; b ← p !! j; Some (bool_decide (a < b)).

(** [p[i], p[j] = p[j], p[i]]; an index out of range panics. *)
Definition Swap (p : uint32Slice) (i j : nat) : option uint32Slice :=
  a ← p !! i; b ← p !! j; Some (<[j := a]> (<[i := b]> p)).
End uint32Slice.

(** [sort.Sort] belongs to Go's standard library.  It is modelled by the
    insertion sort the library runs on short slices, which touches the
    data only through [Len], [Less] and [Swap]:
    [for i := 1; i < n; i++ { for j := i; j > 0 && Less(j, j-1); j-- { Swap(j, j-1) } }]. *)
Fixpoint sift (p : uint32Slice) (j : nat) : option uint32Slice :=
  match j with
  | O => Some p
  | S j' =>
      lt ← uint32Slice.Less p j j';
      if (lt : bool) then p' ← uint32Slice.Swap p j j'; sift p' j' else Some p
  end.

Fixpoint insertion_loop (n i : nat) (p : uint32Slice) : option uint32Slice :=
  match n with
  | O => Some p
  | S n' => p' ← sift p i; insertion_loop n' (S i) p'
  end.

Definition sort_Sort (p : uint32Slice) : option uint32Slice :=
  insertion_loop (uint32Slice.Len p - 1)%nat 1%nat p.

(** The body of [Values] once the [range] loop has visited the keys of
    [valuesToName] in the order [visited]: [values] starts empty (its
    capacity, [len(e.valuesToName)], is not observable) and each key is
    appended. *)
Definition Values_visiting (visited : list uint32) : option (list uint32) :=
  let values := foldl (λ values v, values ++ [v]) [] visited in
  sort_Sort values.

(** [func (e *Enum) Values() []uint32]; the receiver is dereferenced
    without a nil test, so the nil pointer panics.  The iteration order
    of a Go map is unspecified: [Values] fixes one, [Values_visiting]
    covers them all. *)
Definition Values (e : option Enum) : option (list uint32) :=
  e ← e; Values_visiting (GoMap.keys (valuesToName e)).

(** ** EnumMap values and the store

    [EnumMap] is the interface [*Enum] implements, and [*Enum] is its only
    implementation in [registry.go].  An [EnumMap] value is the nil
    interface or a [*Enum] pointer, itself possibly nil.  The
    pointer refers to an [Enum] of the heap or to one of the two [Enum]s
    embedded in the registry ([Tags] and [Types] return their
    addresses). *)

Abbreviation loc := positive.

Inductive EnumRef :=
  | HeapEnum (l : loc)
  | RegistryTags
  | RegistryTypes.

Inductive EnumMap :=
  | EnumMap_nil
  | EnumMap_ptr (p : option EnumRef).

Record Registry := mkRegistry {
  enums : gomap Tag EnumMap;
  tags : Enum;
  types : Enum
}.

(** The zero value, as in [var DefaultRegistry Registry]. *)
Definition Registry_zero : Registry := mkRegistry GoMap.nil NewEnum NewEnum.

(** The heap maps every location to the [Enum] stored there; a location
    never written holds the zero [Enum]. *)
Abbreviation Heap := (gmap loc Enum).

Definition load (h : Heap) (r : Registry) (p : option EnumRef) : option Enum :=
  match p with
  | None => None
  | Some (HeapEnum l) => Some (default NewEnum (h !! l))
  | Some RegistryTags => Some (tags r)
  | Some RegistryTypes => Some (types r)
  end.

(** ** Registry *)

Definition RegisterType `{Normalizer}
    (r : Registry) (t : Type_) (name : string) : option Registry :=
  types' ← RegisterValue (types r) (uint32_of_Type t) name;
  Some (mkRegistry (enums r) (tags r) types').

Definition RegisterTag `{Normalizer}
    (r : Registry) (t : Tag) (name : string) : option Registry :=
  tags' ← RegisterValue (tags r) (uint32_of_Tag t) name;
  Some (mkRegistry (enums r) tags' (types r)).

Definition RegisterEnum (r : Registry) (t : Tag) (def : EnumMap) : option Registry :=
  let r :=
    if GoMap.is_nil (enums r)
    then mkRegistry GoMap.make (tags r) (types r)
    else r in
  enums' ← GoMap.set (enums r) t def;
  Some (mkRegistry enums' (tags r) (types r)).

(** [r.enums[t]] yields the zero value, the nil interface, for an absent
    key. *)
Definition EnumForTag (r : Registry) (t : Tag) : EnumMap :=
  if GoMap.is_nil (enums r)
  then EnumMap_nil
  else default EnumMap_nil (GoMap.get (enums r) t).

Definition IsBitmask (h : Heap) (r : Registry) (t : Tag) : bool :=
  match EnumForTag r t with
  | EnumMap_ptr p => Bitmask (load h r p)
  | EnumMap_nil => false
  end.

Definition IsEnum (h : Heap) (r : Registry) (t : Tag) : bool :=
  match EnumForTag r t with
  | EnumMap_ptr p => negb (Bitmask (load h r p))
  | EnumMap_nil => false
  end.

Definition Tags (r : Registry) : EnumMap := EnumMap_ptr (Some RegistryTags).

Definition Types (r : Registry) : EnumMap := EnumMap_ptr (Some RegistryTypes).

(** ** Programs over one registry

    A program is a sequence of the four registration calls; [Enum]s are
    reached through pointers, so that an [Enum] registered for a tag can
    still be extended afterwards. *)

Inductive Call :=
  | CallRegisterTag (t : Tag) (name : string)
  | CallRegisterType (t : Type_) (name : string)
  | CallRegisterEnum (t : Tag) (def : EnumMap)
  | CallRegisterValue (p : option EnumRef) (v : uint32) (name : string).

Record Store := mkStore { heap : Heap; registry : Registry }.

Definition exec `{Normalizer} (s : Store) (c : Call) : option Store :=
  match c with
  | CallRegisterTag t name =>
      r ← RegisterTag (registry s) t name; Some (mkStore (heap s) r)
  | CallRegisterType t name =>
      r ← RegisterType (registry s) t name; Some (mkStore (heap s) r)
  | CallRegisterEnum t def =>
      r ← RegisterEnum (registry s) t def; Some (mkStore (heap s) r)
  | CallRegisterValue p v name =>
      e ← RegisterValue_ptr (load (heap s) (registry s) p) v name;
      match p with
      | None => None
      | Some (HeapEnum l) => Some (mkStore (<[l := e]> (heap s)) (registry s))
      | Some RegistryTags =>
          Some (mkStore (heap s)
                  (mkRegistry (enums (registry s)) e (types (registry s))))
      | Some RegistryTypes =>
          Some (mkStore (heap s)
                  (mkRegistry (enums (registry s)) (tags (registry s)) e))
      end
  end.

Fixpoint run `{Normalizer} (s : Store) (cs : list Call) : option Store :=
  match cs with
  | [] => Some s
  | c :: cs => s' ← exec s c; run s' cs
  end.

(** Registering a list of value/name pairs, in order. *)
Fixpoint RegisterValues `{Normalizer}
    (e : Enum) (l : list (uint32 * string)) : option Enum :=
  match l with
  | [] => Some e
  | (v, name) :: l => e' ← RegisterValue e v name; RegisterValues e' l
  end.


(** ** The package functions behind the [Registry] methods

    [Registry.FormatTag], [Registry.ParseTag] and [Registry.ParseEnum]
    forward to package-level functions of other files of [ttlv], which
    are not among the sources. *)

(** [ErrInvalidHexString] and [ErrUnregisteredEnumName]. *)
Inductive error :=
  | ErrInvalidHexString
  | ErrUnregisteredEnumName.

(** A Go [(value, error)] result. *)
Inductive result (A : Type) :=
  | Ok (a : A)
  | Err (e : error).
Arguments Ok {A} a.
Arguments Err {A} e.

(** A letter, a digit or the underscore. *)
Definition is_word_char (c : ascii) : bool :=
  let n := N_of_ascii c in
  (48 <=? n) && (n <=? 57) || (65 <=? n) && (n <=? 90) ||
  (97 <=? n) && (n <=? 122) || (n =? 95).

(** Modelled from the spec: [kmiputil.NormalizeName], which is not among
    the sources.  "Normalized name = canonical name with spaces removed
    and special characters stripped [...] (letters, digits; remove
    whitespace and punctuation other than underscore)".  It serves the
    examples only: the theorems hold for every normalizer. *)
Fixpoint spec_NormalizeName (s : string) : string :=
  match s with
  | EmptyString => EmptyString
  | String c s' =>
      if is_word_char c then String c (spec_NormalizeName s')
      else spec_NormalizeName s'
  end.

Definition spec_Normalizer : Normalizer := spec_NormalizeName.

(** Hexadecimal notation, for the functions modelled from the spec
    below: the value of a hexadecimal digit, of either case. *)
Definition hex_digit_value (c : ascii) : option N :=
  let n := N_of_ascii c in
  if (48 <=? n) && (n <=? 57) then Some (n - 48)
  else if (97 <=? n) && (n <=? 102) then Some (n - 87)
  else if (65 <=? n) && (n <=? 70) then Some (n - 55)
  else None.

(** Reading hexadecimal digits, most significant first. *)
Fixpoint parse_hex (s : string) (acc : N) : option N :=
  match s with
  | EmptyString => Some acc
  | String c s' => d ← hex_digit_value c; parse_hex s' (16 * acc + d)
  end.

(** The digits of a string that begins with "0x": what follows the
    prefix. *)
Definition hex_digits_of (s : string) : option string :=
  match s with
  | String c1 (String c2 digits) =>
      if Ascii.eqb c1 "0" && Ascii.eqb c2 "x" then Some digits else None
  | _ => None
  end.

(** [s] begins with "0x". *)
Definition hex_formed (s : string) : bool :=
  match hex_digits_of s with Some _ => true | None => false end.

(** [Some n] when [s] is "0x" followed by exactly [width] hexadecimal
    digits that denote [n]. *)
Definition parse_0x (width : nat) (s : string) : option N :=
  digits ← hex_digits_of s;
  if Nat.eqb (String.length digits) width then parse_hex digits 0 else None.

(** "0x" followed by [digits]. *)
Definition with_0x (digits : string) : string := String "0" (String "x" digits).

Definition hex_digit (d : N) : ascii :=
  if d <? 10 then ascii_of_N (48 + d) else ascii_of_N (87 + d).

(** The [width] low hexadecimal digits of [n], most significant first. *)
Fixpoint format_hex (width : nat) (n : N) : string :=
  match width with
  | O => EmptyString
  | S w => (format_hex w (n / 16) ++ String (hex_digit (n mod 16)) EmptyString)%string
  end.

(** Modelled from the spec: the package function [FormatTag], which is not
    among the sources.  "FormatTag(Tag) -> canonical name, else 0xHHHHHH".
    The spec fixes no letter case for the digits; lower case is written,
    both cases are read. *)
Definition FormatTag (v : uint32) (enumMap : option Enum) : string :=
  let '(name, ok) := CanonicalName enumMap v in
  if ok then name else with_0x (format_hex 6 v).

(** Modelled from the spec: the package function [ParseTag], which is not
    among the sources.  "ParseTag(string) -> Tag: accepts canonical name,
    normalized name, or 0x + 6 hex digits.  Fails with MalformedHex if hex
    form is wrong length or non-hex; returns TagNone for unknown strings
    that are not hex." *)
Definition ParseTag (s : string) (enumMap : option Enum) : result Tag :=
  if hex_formed s then
    match parse_0x 6 s with
    | Some n => Ok n
    | None => Err ErrInvalidHexString
    end
  else
    let '(v, ok) := Value enumMap s in
    if ok then Ok v else Ok TagNone.

(** The components of a string joined with [sep]. *)
Fixpoint split_on (sep : ascii) (s : string) : list string :=
  match s with
  | EmptyString => [EmptyString]
  | String c s' =>
      if Ascii.eqb c sep then EmptyString :: split_on sep s'
      else match split_on sep s' with
           | h :: t => String c h :: t
           | [] => [String c EmptyString]
           end
  end.

(** Modelled from the spec: one component of the string [ParseEnum]
    reads, "0x" and 8 hexadecimal digits ("0xHHHHHHHH") or a name in
    either form; an unknown name fails with [ErrUnregisteredEnumName]. *)
Definition parse_enum_component (enumMap : option Enum) (c : string) : result uint32 :=
  match parse_0x 8 c with
  | Some n => Ok n
  | None =>
      let '(v, ok) := Value enumMap c in
      if ok then Ok v else Err ErrUnregisteredEnumName
  end.

(** Modelled from the spec: the bitwise or of the components of a
    bitmask string, read from left to right; the first failure ends the
    reading. *)
Fixpoint parse_mask (enumMap : option Enum) (cs : list string) (acc : uint32) : result uint32 :=
  match cs with
  | [] => Ok acc
  | c :: cs =>
      match parse_enum_component enumMap c with
      | Ok v => parse_mask enumMap cs (N.lor acc v)
      | Err e => Err e
      end
  end.

(** Modelled from the spec: the package function [ParseEnum], which is not
    among the sources.  "ParseEnum(Tag, string): inverse [of FormatEnum];
    unknown names in bitmask form fail with UnregisteredEnumName unless
    given as hex", where FormatEnum emits, "if bitmask,
    Name1|Name2|0x00000004 joining known bits and a hex residual for
    unknown bits; if enum, [...] the name or 0xHHHHHHHH".  The spec names
    no other failure of [ParseEnum]. *)
Definition ParseEnum (s : string) (enumMap : option Enum) : result uint32 :=
  if Bitmask enumMap
  then parse_mask enumMap (split_on "|" s) 0
  else parse_enum_component enumMap s.

(** An [EnumMap] argument as the package functions see it: the [Enum]
    behind the pointer, if there is one. *)
Definition pointee (h : Heap) (r : Registry) (m : EnumMap) : option Enum :=
  match m with
  | EnumMap_nil => None
  | EnumMap_ptr p => load h r p
  end.

(** [func (r *Registry) FormatTag(t Tag) string] *)
Definition Registry_FormatTag (r : Registry) (t : Tag) : string :=
  FormatTag (uint32_of_Tag t) (Some (tags r)).

(** [func (r *Registry) ParseTag(s string) (Tag, error)] *)
Definition Registry_ParseTag (r : Registry) (s : string) : result Tag :=
  ParseTag s (Some (tags r)).

(** [func (r *Registry) ParseEnum(t Tag, s string) (uint32, error)] *)
Definition Registry_ParseEnum (h : Heap) (r : Registry) (t : Tag) (s : string) : result uint32 :=
  ParseEnum s (pointee h r (EnumForTag r t)).

(** * Definitions used in the statements *)

(** ** Hexadecimal notation *)

(** The hexadecimal digits, of either case. *)
Definition is_hex_digit (c : ascii) : bool :=
  bool_decide (c ∈ list_ascii_of_string "0123456789abcdefABCDEF").

(** The number a string of hexadecimal digits denotes, digit by digit:
    the digit [d] followed by [k] more digits counts for [d * 16^k]. *)
Fixpoint hex_value (digits : string) : option N :=
  match digits with
  | EmptyString => Some 0
  | String c ds =>
      d ← hex_digit_value c; v ← hex_value ds;
      Some (d * 16 ^ N.of_nat (String.length ds) + v)
  end.

(** Some character of [s] is not a hexadecimal digit. *)
Fixpoint has_non_hex (s : string) : bool :=
  match s with
  | EmptyString => false
  | String c s' => negb (is_hex_digit c) || has_non_hex s'
  end.


(** [s] is "0x" followed by exactly [width] hexadecimal digits. *)
Definition hex_of_width (width : nat) (s : string) : Prop :=
  ∃ digits, s = with_0x digits ∧ String.length digits = width ∧
            has_non_hex digits = false.

(** ** Go maps as finite maps *)

(** The content of a Go map; the nil map reads as the empty map. *)
Definition gm {K} `{Countable K} {V} (m : gomap K V) : gmap K V := default ∅ m.

(** Assigning the pairs of [l] in order. *)
Definition inserts {K} `{Countable K} {V} (m : gmap K V) (l : list (K * V)) : gmap K V :=
  foldl (λ m kv, <[kv.1 := kv.2]> m) m l.

(** ** Well-formed enums and stores *)

(** An [Enum] none of whose maps is allocated, as the constructors leave it. *)
Definition Enum_fresh (e : Enum) : Prop :=
  valuesToName e = None ∧ valuesToCanonicalName e = None ∧
  nameToValue e = None ∧ canonicalNamesToValue e = None.

(** An [Enum] whose maps are all allocated, as [RegisterValue] leaves it. *)
Definition Enum_allocated (e : Enum) : Prop :=
  valuesToName e ≠ None ∧ valuesToCanonicalName e ≠ None ∧
  nameToValue e ≠ None ∧ canonicalNamesToValue e ≠ None.

(** The four maps of an [Enum] are allocated together. *)
Definition Enum_wf (e : Enum) : Prop := Enum_fresh e ∨ Enum_allocated e.

(** The pairs each map is assigned by the registrations [l]. *)
Definition name_of `{Normalizer} (l : list (uint32 * string)) : list (uint32 * string) :=
  (λ vn, (vn.1, NormalizeName vn.2)) <$> l.

Definition value_of_name `{Normalizer} (l : list (uint32 * string)) : list (string * uint32) :=
  (λ vn, (NormalizeName vn.2, vn.1)) <$> l.

Definition value_of_canonical (l : list (uint32 * string)) : list (string * uint32) :=
  (λ vn, (vn.2, vn.1)) <$> l.

(** No call panics in a store whose [Enum]s are well formed, unless it
    registers a value through the nil pointer. *)
Definition Store_wf (s : Store) : Prop :=
  Enum_wf (tags (registry s)) ∧ Enum_wf (types (registry s)) ∧
  ∀ l e, heap s !! l = Some e → Enum_wf e.

Definition Call_ok (c : Call) : Prop :=
  match c with
  | CallRegisterValue None _ _ => False
  | _ => True
  end.

(** ** Insertion into a sorted prefix *)

(** Inserting into a list in decreasing order: what one pass of the inner
    loop does to the sorted prefix, read from its right end. *)
Fixpoint insert_desc (x : uint32) (r : list uint32) : list uint32 :=
  match r with
  | [] => [x]
  | y :: r' => if bool_decide (x < y) then y :: insert_desc x r' else x :: r
  end.

(** ** Registration histories *)

(** The value most recently assigned to [k] by the pairs of [l], read in
    order. *)
Fixpoint last_assigned {K} `{EqDecision K} {V} (l : list (K * V)) (k : K) : option V :=
  match l with
  | [] => None
  | (k', v) :: l' =>
      match last_assigned l' k with
      | Some v' => Some v'
      | None => if decide (k' = k) then Some v else None
      end
  end.

(** ** Example data

    A registry with two tags, a bitmask of three names, and a store where
    the bitmask lives on the heap. *)

Definition example_registrations : list (uint32 * string) :=
  [(0x420001, "Activation Date"); (0x420028, "Cryptographic Algorithm")].

Definition example_tags : Enum :=
  default NewEnum (@RegisterValues spec_Normalizer NewEnum example_registrations).

Definition example_registry : Registry :=
  mkRegistry GoMap.nil example_tags NewEnum.

Definition example_mask_names : list (uint32 * string) :=
  [(1, "Sign"); (2, "Verify"); (4, "Encrypt")].

Definition example_mask : Enum :=
  default NewBitmask (@RegisterValues spec_Normalizer NewBitmask example_mask_names).

(** A store where the mask of tag [0x42002c] lives at location 1. *)
Definition example_store : Store :=
  mkStore {[ 1%positive := example_mask ]}
          (default example_registry
             (RegisterEnum example_registry 0x42002c
                (EnumMap_ptr (Some (HeapEnum 1))))).

Definition example_calls : list Call :=
  [ CallRegisterEnum 0x42002c (EnumMap_ptr (Some (HeapEnum 1)));
    CallRegisterValue (Some (HeapEnum 1)) 8 "Decrypt";
    CallRegisterEnum 0x420028 (EnumMap_ptr (Some RegistryTypes));
    CallRegisterTag 0x42002c "Cryptographic Usage Mask";
    CallRegisterType 2 "Integer" ].

(** * Properties *)

(** ** Go maps seen as finite maps *)

Lemma get_gm {K} `{Countable K} {V} (m : gomap K V) k : GoMap.get m k = gm m !! k.
Proof. by destruct m. Qed.

Section inserts.
Context {K : Type} `{Countable K} {V : Type}.
Implicit Types (m : gmap K V) (l : list (K * V)).

Lemma inserts_snoc m l k v : inserts m (l ++ [(k, v)]) = <[k := v]> (inserts m l).
Proof. unfold inserts. by rewrite foldl_app. Qed.

Lemma inserts_lookup_None m l k :
  inserts m l !! k = None ↔ (k ∉ l.*1) ∧ m !! k = None.
Proof.
  induction l as [|[k' v'] l IH] using rev_ind; simpl.
  - split; [intros ?; split; [apply not_elem_of_nil | done] | by intros [_ ?]].
  - rewrite inserts_snoc, fmap_app, lookup_insert_None, IH, not_elem_of_app.
    simpl. rewrite list_elem_of_singleton. split.
    + intros [[? ?] ?]. split; [split; [done | congruence] | done].
    + intros [[? ?] ?]. split; [by split | congruence].
Qed.

Lemma inserts_lookup_Some m l k v :
  inserts m l !! k = Some v → (k, v) ∈ l ∨ ((k ∉ l.*1) ∧ m !! k = Some v).
Proof.
  induction l as [|[k' v'] l IH] using rev_ind; simpl.
  - intros ?. right. split; [apply not_elem_of_nil | done].
  - rewrite inserts_snoc, fmap_app, lookup_insert_Some.
    intros [[-> ->]|[Hne Hl]].
    + left. apply elem_of_app. right. by left.
    + destruct (IH Hl) as [Hin|[Hnotin Hm]].
      * left. apply elem_of_app. by left.
      * right. split; [|done]. apply not_elem_of_app. split; [done|].
        simpl. rewrite list_elem_of_singleton. congruence.
Qed.

(** A key assigned a single value throughout [l] ends with that value. *)
Lemma inserts_lookup_unique m l k v :
  k ∈ l.*1 → (∀ v', (k, v') ∈ l → v' = v) → inserts m l !! k = Some v.
Proof.
  intros Hk Hu. destruct (inserts m l !! k) as [v'|] eqn:E.
  - apply inserts_lookup_Some in E as [E|[E _]]; [by rewrite (Hu _ E) | done].
  - apply inserts_lookup_None in E as [E _]. done.
Qed.

End inserts.

(** ** Registering values *)

Lemma NewEnum_wf : Enum_wf NewEnum.
Proof. by left. Qed.

Lemma NewBitmask_wf : Enum_wf NewBitmask.
Proof. by left. Qed.

Section register.
Context `{Normalizer}.

(** What one registration does to the content of the four maps. *)
Lemma RegisterValue_spec e v name :
  Enum_wf e →
  ∃ e', RegisterValue e v name = Some e' ∧ Enum_allocated e' ∧
    gm (valuesToName e') = <[v := NormalizeName name]> (gm (valuesToName e)) ∧
    gm (nameToValue e') = <[NormalizeName name := v]> (gm (nameToValue e)) ∧
    gm (valuesToCanonicalName e') = <[v := name]> (gm (valuesToCanonicalName e)) ∧
    gm (canonicalNamesToValue e') = <[name := v]> (gm (canonicalNamesToValue e)) ∧
    bitMask e' = bitMask e.
Proof.
  destruct e as [a b c d bm]. intros [(Ha & Hb & Hc & Hd)|(Ha & Hb & Hc & Hd)];
    simpl in *.
  - subst. eexists. split; [reflexivity|]. by repeat split.
  - destruct a as [a|], b as [b|], c as [c|], d as [d|]; try done.
    eexists. split; [reflexivity|]. by repeat split.
Qed.

Lemma RegisterValues_snoc e l v name :
  RegisterValues e (l ++ [(v, name)]) =
  RegisterValues e l ≫= λ e', RegisterValue e' v name.
Proof.
  revert e. induction l as [|[v' n'] l IH]; intros e; simpl.
  - by destruct (RegisterValue e v name).
  - destruct (RegisterValue e v' n'); simpl; [apply IH | done].
Qed.

(** Registering never panics on a well-formed [Enum], and assigns the
    four maps in the order of the registrations. *)
Lemma RegisterValues_spec e l :
  Enum_wf e →
  ∃ e', RegisterValues e l = Some e' ∧ Enum_wf e' ∧
    gm (valuesToName e') = inserts (gm (valuesToName e)) (name_of l) ∧
    gm (nameToValue e') = inserts (gm (nameToValue e)) (value_of_name l) ∧
    gm (valuesToCanonicalName e') = inserts (gm (valuesToCanonicalName e)) l ∧
    gm (canonicalNamesToValue e') =
      inserts (gm (canonicalNamesToValue e)) (value_of_canonical l) ∧
    bitMask e' = bitMask e.
Proof.
  intros Hwf. induction l as [|[v name] l IH] using rev_ind.
  - exists e. by repeat split.
  - destruct IH as (e1 & Hrun & Hwf1 & H1 & H2 & H3 & H4 & H5).
    destruct (RegisterValue_spec e1 v name Hwf1)
      as (e2 & Hreg & Hal & G1 & G2 & G3 & G4 & G5).
    exists e2. rewrite RegisterValues_snoc, Hrun. simpl.
    split; [done|]. split; [by right|].
    unfold name_of, value_of_name, value_of_canonical.
    rewrite !fmap_app. simpl. rewrite !inserts_snoc.
    rewrite G1, G2, G3, G4, G5, H1, H2, H3, H4, H5. done.
Qed.
End register.

(** ** Lookups in an [Enum] built by registrations *)

Lemma inserts_fmap {K} `{Countable K} {A B} (f : A → B) (m : gmap K A) (l : list (K * A)) :
  inserts (f <$> m) ((λ kv, (kv.1, f kv.2)) <$> l) = f <$> inserts m l.
Proof.
  induction l as [|[k a] l IH] using rev_ind; [done|].
  rewrite fmap_app. simpl. rewrite !inserts_snoc, IH. by rewrite fmap_insert.
Qed.

Section lookups.
Context `{Normalizer}.
Implicit Types (e : Enum) (l : list (uint32 * string)) (v : uint32) (n s : string).

(** The maps of an [Enum] built from a fresh one by the registrations [l]. *)
Lemma built_tables e0 l e :
  Enum_fresh e0 → RegisterValues e0 l = Some e →
  gm (valuesToName e) = inserts ∅ (name_of l) ∧
  gm (nameToValue e) = inserts ∅ (value_of_name l) ∧
  gm (valuesToCanonicalName e) = inserts ∅ l ∧
  gm (canonicalNamesToValue e) = inserts ∅ (value_of_canonical l) ∧
  bitMask e = bitMask e0.
Proof.
  intros Hf Hrun.
  destruct (RegisterValues_spec e0 l (or_introl Hf)) as (e' & Hrun' & _ & Ht).
  rewrite Hrun in Hrun'. injection Hrun' as <-.
  destruct Hf as (E1 & E2 & E3 & E4). rewrite E1, E2, E3, E4 in Ht. exact Ht.
Qed.

Lemma Name_gm e v : Name (Some e) v = comma_ok "" (gm (valuesToName e) !! v).
Proof. unfold Name. by rewrite get_gm. Qed.

Lemma CanonicalName_gm e v :
  CanonicalName (Some e) v = comma_ok "" (gm (valuesToCanonicalName e) !! v).
Proof. unfold CanonicalName. by rewrite get_gm. Qed.

Lemma Value_gm e s :
  Value (Some e) s =
  match gm (nameToValue e) !! s with
  | Some v => (v, true)
  | None => comma_ok 0 (gm (canonicalNamesToValue e) !! s)
  end.
Proof.
  unfold Value. rewrite !get_gm. by destruct (gm (nameToValue e) !! s).
Qed.

Lemma elem_of_value_of_name l s v :
  (s, v) ∈ value_of_name l ↔ ∃ n, (v, n) ∈ l ∧ NormalizeName n = s.
Proof.
  unfold value_of_name. rewrite list_elem_of_fmap. split.
  - intros ([v' n] & [= -> ->] & Hin). eauto.
  - intros (n & Hin & <-). by exists (v, n).
Qed.

Lemma elem_of_value_of_canonical l s v : (s, v) ∈ value_of_canonical l ↔ (v, s) ∈ l.
Proof.
  unfold value_of_canonical. rewrite list_elem_of_fmap. split.
  - by intros ([v' n] & [= -> ->] & Hin).
  - intros Hin. by exists (v, s).
Qed.

(** The normalized table is the canonical table, normalized. *)
Lemma built_names_agree e0 l e v :
  Enum_fresh e0 → RegisterValues e0 l = Some e →
  gm (valuesToName e) !! v = NormalizeName <$> gm (valuesToCanonicalName e) !! v.
Proof.
  intros Hf Hrun. destruct (built_tables e0 l e Hf Hrun) as (-> & _ & -> & _).
  unfold name_of. rewrite <- (fmap_empty NormalizeName), inserts_fmap.
  by rewrite lookup_fmap.
Qed.

(** Every registered value has a canonical name, one it was registered
    under. *)
Lemma built_canonical e0 l e v :
  Enum_fresh e0 → RegisterValues e0 l = Some e → v ∈ l.*1 →
  ∃ n, (v, n) ∈ l ∧ gm (valuesToCanonicalName e) !! v = Some n.
Proof.
  intros Hf Hrun Hv. destruct (built_tables e0 l e Hf Hrun) as (_ & _ & -> & _).
  destruct (inserts ∅ l !! v) as [n|] eqn:E.
  - exists n. split; [|done].
    apply inserts_lookup_Some in E as [E|[_ E]]; [done|]. by rewrite lookup_empty in E.
  - apply inserts_lookup_None in E as [E _]. done.
Qed.
(** A name answers with the value it was registered for when no other
    value was registered under it or under a name normalizing to it. *)
Lemma Value_of_own_name e0 l e v n :
  Enum_fresh e0 → RegisterValues e0 l = Some e → (v, n) ∈ l →
  (∀ v' n', (v', n') ∈ l → n' = n ∨ NormalizeName n' = n → v' = v) →
  Value (Some e) n = (v, true).
Proof.
  intros Hf Hrun Hin Hu.
  destruct (built_tables e0 l e Hf Hrun) as (_ & Hnv & _ & Hcv & _).
  rewrite Value_gm. destruct (gm (nameToValue e) !! n) as [v'|] eqn:E.
  - rewrite Hnv in E. apply inserts_lookup_Some in E as [E|[_ E]].
    + apply elem_of_value_of_name in E as (n' & Hin' & Heq).
      by rewrite (Hu v' n' Hin' (or_intror Heq)).
    + by rewrite lookup_empty in E.
  - rewrite Hcv, (inserts_lookup_unique _ _ n v); [done| |].
    + apply list_elem_of_fmap. exists (n, v). split; [done|].
      by apply elem_of_value_of_canonical.
    + intros v' Hin'%elem_of_value_of_canonical. eauto.
Qed.

(** A string that is no registered name, in either form, has no value. *)
Lemma Value_of_unknown_name e0 l e s :
  Enum_fresh e0 → RegisterValues e0 l = Some e →
  (∀ v n, (v, n) ∈ l → s ≠ n ∧ s ≠ NormalizeName n) →
  Value (Some e) s = (0, false).
Proof.
  intros Hf Hrun Hs.
  destruct (built_tables e0 l e Hf Hrun) as (_ & Hnv & _ & Hcv & _).
  rewrite Value_gm, Hnv, Hcv.
  assert (inserts ∅ (value_of_name l) !! s = None) as ->.
  { apply inserts_lookup_None. split; [|done].
    intros ([s' v] & -> & (n & Hin & Heq)%elem_of_value_of_name)%list_elem_of_fmap.
    simpl in *. by destruct (Hs v n Hin). }
  assert (inserts ∅ (value_of_canonical l) !! s = None) as ->; [|done].
  apply inserts_lookup_None. split; [|done].
  intros ([s' v] & -> & Hin%elem_of_value_of_canonical)%list_elem_of_fmap.
  simpl in *. by destruct (Hs v s' Hin).
Qed.

Lemma built_canonical_inv e0 l e v n :
  Enum_fresh e0 → RegisterValues e0 l = Some e →
  CanonicalName (Some e) v = (n, true) → (v, n) ∈ l.
Proof.
  intros Hf Hrun. destruct (built_tables e0 l e Hf Hrun) as (_ & _ & Hc & _).
  rewrite CanonicalName_gm, Hc.
  destruct (inserts ∅ l !! v) as [n'|] eqn:E; [|done]. intros [= <-].
  apply inserts_lookup_Some in E as [E|[_ E]]; [done|]. by rewrite lookup_empty in E.
Qed.

Lemma built_canonical_None e0 l e v :
  Enum_fresh e0 → RegisterValues e0 l = Some e → v ∉ l.*1 →
  CanonicalName (Some e) v = ("", false).
Proof.
  intros Hf Hrun Hv. destruct (built_tables e0 l e Hf Hrun) as (_ & _ & Hc & _).
  rewrite CanonicalName_gm, Hc.
  by assert (inserts ∅ l !! v = None) as -> by by apply inserts_lookup_None.
Qed.
End lookups.

(** ** Names of registered values *)

(** C2: for every value [v] registered in an [Enum] through
    [RegisterValue], the canonical name stored for [v] is one of the names
    [v] was registered under, and normalizing it gives exactly the
    normalized name stored for [v]:
    [NormalizeName(CanonicalName(v)) = Name(v)]. *)
Theorem Name_is_normalized_CanonicalName `{Normalizer}
    (e0 e : Enum) (l : list (uint32 * string)) (v : uint32) :
  Enum_fresh e0 → RegisterValues e0 l = Some e → v ∈ l.*1 →
  ∃ n, (v, n) ∈ l ∧ CanonicalName (Some e) v = (n, true) ∧
       Name (Some e) v = (NormalizeName n, true).
Proof.
  intros Hf Hrun Hv.
  destruct (built_canonical e0 l e v Hf Hrun Hv) as (n & Hin & Hn).
  exists n. split; [done|].
  rewrite Name_gm, CanonicalName_gm, (built_names_agree e0 l e v Hf Hrun), Hn.
  done.
Qed.

(** ** Values of registered names *)

(** A name registered twice answers with the later value, whatever the
    normalizer does. *)
Lemma Value_of_reused_name `{Normalizer} :
  ∃ e, RegisterValues NewEnum [(1, "x"); (2, "x")] = Some e ∧
       CanonicalName (Some e) 1 = ("x", true) ∧ Value (Some e) "x" = (2, true).
Proof.
  eexists. split; [reflexivity|]. split; [reflexivity|].
  rewrite Value_gm. simpl. unfold gm. simpl.
  destruct (decide (NormalizeName "x" = "x")) as [->|Hne].
  - by rewrite lookup_insert_eq.
  - rewrite !lookup_insert_ne, lookup_empty by done. by rewrite lookup_insert_eq.
Qed.

(** C3 (amended): for every value [v] registered under a name [n], when
    every registration whose normalized name is [n] or [NormalizeName(n)]
    registers [v] (so no other value took over one of the two names),
    [Value] returns [(v, true)] both for [n] and for [NormalizeName(n)];
    and for a string that is neither form of any registered name it
    returns [(0, false)]. *)
Theorem Value_of_unambiguous_name `{Normalizer}
    (e0 e : Enum) (l : list (uint32 * string)) :
  Enum_fresh e0 → RegisterValues e0 l = Some e →
  (∀ v n, (v, n) ∈ l →
     (∀ v' n', (v', n') ∈ l →
        NormalizeName n' = n ∨ NormalizeName n' = NormalizeName n → v' = v) →
     Value (Some e) n = (v, true) ∧ Value (Some e) (NormalizeName n) = (v, true)) ∧
  (∀ s, (∀ v n, (v, n) ∈ l → s ≠ n ∧ s ≠ NormalizeName n) →
     Value (Some e) s = (0, false)).
Proof.
  intros Hf Hrun. split.
  - intros v n Hin Hu. split.
    + apply (Value_of_own_name e0 l e v n Hf Hrun Hin).
      intros v' n' Hin' [->|Heq]; eauto.
    + destruct (built_tables e0 l e Hf Hrun) as (_ & Hnv & _).
      rewrite Value_gm, Hnv, (inserts_lookup_unique _ _ (NormalizeName n) v); [done| |].
      * apply list_elem_of_fmap. exists (NormalizeName n, v). split; [done|].
        apply elem_of_value_of_name. eauto.
      * intros v' (n' & Hin' & Heq)%elem_of_value_of_name. eauto.
  - intros s Hs. by apply (Value_of_unknown_name e0 l e s Hf Hrun).
Qed.

(** ** Overwriting registrations *)

Lemma RegisterEnum_spec (r : Registry) (t : Tag) (def : EnumMap) :
  ∃ r', RegisterEnum r t def = Some r' ∧
    enums r' = Some (<[t := def]> (gm (enums r))) ∧
    tags r' = tags r ∧ types r' = types r.
Proof. destruct r as [[g|] tg ty]; eexists; (split; [reflexivity|done]). Qed.

Lemma EnumForTag_gm (r : Registry) (t : Tag) :
  EnumForTag r t = default EnumMap_nil (gm (enums r) !! t).
Proof. destruct r as [[g|] tg ty]; [done|]. unfold EnumForTag. simpl. by rewrite lookup_empty. Qed.

(** C7: registration is last-writer-wins.  After [RegisterEnum(t, m1)] and
    then [RegisterEnum(t, m2)], [EnumForTag(t)] returns [m2]; after
    [RegisterValue(v, n1)] and then [RegisterValue(v, n2)], [Name(v)]
    returns [NormalizeName(n2)] and [CanonicalName(v)] returns [n2].
    Neither pair of calls panics. *)
Theorem last_registration_wins `{Normalizer}
    (r : Registry) (t : Tag) (m1 m2 : EnumMap)
    (e : Enum) (v : uint32) (n1 n2 : string) :
  Enum_wf e →
  (∃ r1 r2, RegisterEnum r t m1 = Some r1 ∧ RegisterEnum r1 t m2 = Some r2 ∧
            EnumForTag r2 t = m2) ∧
  (∃ e1 e2, RegisterValue e v n1 = Some e1 ∧ RegisterValue e1 v n2 = Some e2 ∧
            Name (Some e2) v = (NormalizeName n2, true) ∧
            CanonicalName (Some e2) v = (n2, true)).
Proof.
  intros Hwf. split.
  - destruct (RegisterEnum_spec r t m1) as (r1 & H1 & _).
    destruct (RegisterEnum_spec r1 t m2) as (r2 & H2 & He & _).
    exists r1, r2. repeat split; [done..|].
    rewrite EnumForTag_gm, He. simpl. by rewrite lookup_insert_eq.
  - destruct (RegisterValue_spec e v n1 Hwf) as (e1 & H1 & Hal & _).
    destruct (RegisterValue_spec e1 v n2 (or_intror Hal))
      as (e2 & H2 & _ & Hn & _ & Hc & _).
    exists e1, e2. repeat split; [done..| |].
    + by rewrite Name_gm, Hn, lookup_insert_eq.
    + by rewrite CanonicalName_gm, Hc, lookup_insert_eq.
Qed.

(** ** Reads of nil and empty receivers *)

(** X19: the reads that test their receiver are total on nil and empty
    receivers.  On a nil [*Enum], [Name] and [CanonicalName] return
    [("", false)], [Value] returns [(0, false)] and [Bitmask] returns
    [false]; on a [Registry] with no registered enums (its map is nil,
    empty, or holds nil only), [EnumForTag] returns nil and [IsBitmask]
    and [IsEnum] return [false], for every tag. *)
Theorem reads_of_nil_and_empty
    (v : uint32) (name : string) (h : Heap) (r : Registry) (t : Tag) :
  (∀ t' m, GoMap.get (enums r) t' = Some m → m = EnumMap_nil) →
  Name None v = ("", false) ∧ CanonicalName None v = ("", false) ∧
  Value None name = (0, false) ∧ Bitmask None = false ∧
  EnumForTag r t = EnumMap_nil ∧ IsBitmask h r t = false ∧ IsEnum h r t = false.
Proof.
  intros Hempty.
  assert (EnumForTag r t = EnumMap_nil) as Hnil.
  { rewrite EnumForTag_gm, <- get_gm.
    destruct (GoMap.get (enums r) t) as [m|] eqn:E; [|done].
    by rewrite (Hempty t m E). }
  unfold IsBitmask, IsEnum. rewrite Hnil. by repeat split.
Qed.

(** X1: [Values], unlike the other reads, dereferences its receiver
    without a nil test: on a nil [*Enum] it panics. *)
Lemma Values_nil_panics : Values None = None.
Proof. reflexivity. Qed.

(** ** Bitmasks and enumerations *)

Section programs.
Context `{Normalizer}.

Lemma RegisterValue_wf e v name :
  Enum_wf e → ∃ e', RegisterValue e v name = Some e' ∧ Enum_wf e'.
Proof.
  intros Hwf. destruct (RegisterValue_spec e v name Hwf) as (e' & He & Hal & _).
  exists e'. split; [done | by right].
Qed.

Lemma exec_total s c :
  Store_wf s → Call_ok c → ∃ s', exec s c = Some s' ∧ Store_wf s'.
Proof.
  intros (Htags & Htypes & Hheap) Hok.
  destruct c as [t name|t name|t def|[[l| |]|] v name]; simpl in *; try done.
  - unfold RegisterTag.
    destruct (RegisterValue_wf (tags (registry s)) (uint32_of_Tag t) name Htags)
      as (e' & -> & He'). simpl. eexists. split; [done|]. by split.
  - unfold RegisterType.
    destruct (RegisterValue_wf (types (registry s)) (uint32_of_Type t) name Htypes)
      as (e' & -> & He'). simpl. eexists. split; [done|]. by split.
  - destruct (RegisterEnum_spec (registry s) t def) as (r' & -> & _ & Ht & Hy).
    simpl. eexists. split; [done|]. unfold Store_wf. simpl. by rewrite Ht, Hy.
  - assert (Enum_wf (default NewEnum (heap s !! l))) as Hl.
    { destruct (heap s !! l) as [e|] eqn:E; [by eapply Hheap | apply NewEnum_wf]. }
    destruct (RegisterValue_wf _ v name Hl) as (e' & -> & He'). simpl.
    eexists. split; [done|]. repeat split; simpl; [done..|].
    intros l' e'' [[_ <-]|[_ ?]]%lookup_insert_Some; [done | by eapply Hheap].
  - destruct (RegisterValue_wf _ v name Htags) as (e' & -> & He'). simpl.
    eexists. split; [done|]. by split.
  - destruct (RegisterValue_wf _ v name Htypes) as (e' & -> & He'). simpl.
    eexists. split; [done|]. by split.
Qed.

(** X2: on a store whose [Enum]s are well formed, no sequence of
    registration calls panics, unless one registers a value through the
    nil pointer; the store stays well formed. *)
Theorem run_total s cs :
  Store_wf s → Forall Call_ok cs → ∃ s', run s cs = Some s' ∧ Store_wf s'.
Proof.
  intros Hwf Hok. revert s Hwf.
  induction Hok as [|c cs Hc _ IH]; intros s Hwf; simpl.
  - by exists s.
  - destruct (exec_total s c Hwf Hc) as (s1 & -> & Hwf1). simpl. by apply IH.
Qed.

Lemma RegisterValue_bitMask e v name e' :
  RegisterValue e v name = Some e' → bitMask e' = bitMask e.
Proof.
  destruct e as [[a|] [b|] [c|] [d|] bm]; unfold RegisterValue; simpl;
    by intros [= <-].
Qed.

(** X3: [RegisterTag], [RegisterType] and [RegisterValue] never change
    whether a tag is a bitmask or an enumeration: only [RegisterEnum]
    does. *)
Theorem classification_changes_only_by_RegisterEnum s s' c t :
  exec s c = Some s' → (∀ t' def, c ≠ CallRegisterEnum t' def) →
  IsBitmask (heap s') (registry s') t = IsBitmask (heap s) (registry s) t ∧
  IsEnum (heap s') (registry s') t = IsEnum (heap s) (registry s) t.
Proof.
  intros Hexec Hc.
  assert (enums (registry s') = enums (registry s) ∧
          ∀ p, Bitmask (load (heap s') (registry s') p) =
               Bitmask (load (heap s) (registry s) p)) as [Henums Hload].
  { destruct c as [t1 name|t1 name|t1 def|p v name]; simpl in Hexec.
    - unfold RegisterTag in Hexec.
      destruct (RegisterValue (tags (registry s)) (uint32_of_Tag t1) name)
        as [e'|] eqn:E; [|done].
      injection Hexec as <-. split; [done|].
      intros [[l| |]|]; simpl; try done. by apply RegisterValue_bitMask in E.
    - unfold RegisterType in Hexec.
      destruct (RegisterValue (types (registry s)) (uint32_of_Type t1) name)
        as [e'|] eqn:E; [|done].
      injection Hexec as <-. split; [done|].
      intros [[l| |]|]; simpl; try done. by apply RegisterValue_bitMask in E.
    - by destruct (Hc t1 def).
    - destruct p as [[l| |]|]; simpl in Hexec; [| | |done].
      + destruct (RegisterValue (default NewEnum (heap s !! l)) v name)
          as [e'|] eqn:E; [|done].
        injection Hexec as <-. split; [done|].
        apply RegisterValue_bitMask in E.
        intros [[l'| |]|]; simpl; try done.
        destruct (decide (l = l')) as [<-|Hne].
        * by rewrite lookup_insert_eq.
        * by rewrite lookup_insert_ne.
      + destruct (RegisterValue (tags (registry s)) v name) as [e'|] eqn:E; [|done].
        injection Hexec as <-. split; [done|].
        intros [[l| |]|]; simpl; try done. by apply RegisterValue_bitMask in E.
      + destruct (RegisterValue (types (registry s)) v name) as [e'|] eqn:E; [|done].
        injection Hexec as <-. split; [done|].
        intros [[l| |]|]; simpl; try done. by apply RegisterValue_bitMask in E. }
  unfold IsBitmask, IsEnum, EnumForTag. rewrite Henums.
  destruct (GoMap.is_nil (enums (registry s))); [done|].
  destruct (default EnumMap_nil (GoMap.get (enums (registry s)) t)) as [|p]; [done|].
  by rewrite Hload.
Qed.
End programs.

Lemma Registry_zero_wf : Store_wf (mkStore ∅ Registry_zero).
Proof. split; [by left|]. split; [by left|]. intros l e Hl. simpl in Hl. by rewrite lookup_empty in Hl. Qed.

(** C10: for every registry and tag, [IsBitmask(t)] and [IsEnum(t)] are
    never both true, and one of them is true exactly when a non-nil
    [EnumMap] is registered for [t]; this holds after every sequence of
    [RegisterTag], [RegisterType], [RegisterEnum] and [RegisterValue]
    calls, from any store. *)
Theorem IsBitmask_IsEnum_partition `{Normalizer}
    (s s' : Store) (cs : list Call) (t : Tag) :
  run s cs = Some s' →
  ¬ (IsBitmask (heap s') (registry s') t = true ∧
     IsEnum (heap s') (registry s') t = true) ∧
  (IsBitmask (heap s') (registry s') t = true ∨
   IsEnum (heap s') (registry s') t = true ↔
   ∃ m, GoMap.get (enums (registry s')) t = Some m ∧ m ≠ EnumMap_nil).
Proof.
  intros _. unfold IsBitmask, IsEnum.
  rewrite EnumForTag_gm, get_gm.
  destruct (gm (enums (registry s')) !! t) as [[|p]|]; simpl.
  - split; [by intros [? _]|]. split.
    + by intros [?|?].
    + intros (m & Hm & Hne). by injection Hm as <-.
  - split.
    + intros [Hb He]. rewrite Hb in He. done.
    + split.
      * intros _. by exists (EnumMap_ptr p).
      * intros _. destruct (Bitmask (load (heap s') (registry s') p)); auto.
  - split; [by intros [? _]|]. split.
    + by intros [?|?].
    + by intros (m & Hm & _).
Qed.

(** ** Sorting *)

Lemma sift_spec (r : list uint32) (x : uint32) (rest : list uint32) :
  sift (reverse r ++ x :: rest) (length r) = Some (reverse (insert_desc x r) ++ rest).
Proof.
  revert rest. induction r as [|y r IH]; intros rest; [done|].
  cbn [length sift insert_desc]. unfold uint32Slice.Less, uint32Slice.Swap.
  assert (length (reverse r) = length r) as Hlen by apply length_reverse.
  rewrite reverse_cons, <- app_assoc. cbn [app].
  assert ((reverse r ++ y :: x :: rest) !! S (length r) = Some x) as ->.
  { rewrite lookup_app_r by lia. rewrite Hlen.
    by replace (S (length r) - length r)%nat with 1%nat by lia. }
  assert ((reverse r ++ y :: x :: rest) !! length r = Some y) as ->.
  { rewrite lookup_app_r by lia. rewrite Hlen.
    by replace (length r - length r)%nat with 0%nat by lia. }
  cbn [mbind option_bind].
  destruct (bool_decide (x < y)); cbn [mbind option_bind].
  - assert (<[length r := x]> (<[S (length r) := y]> (reverse r ++ y :: x :: rest))
            = reverse r ++ x :: y :: rest) as ->.
    { rewrite !insert_app_r_alt by lia. rewrite Hlen.
      replace (S (length r) - length r)%nat with 1%nat by lia.
      by replace (length r - length r)%nat with 0%nat by lia. }
    rewrite IH, reverse_cons. by rewrite <- app_assoc.
  - rewrite !reverse_cons. by rewrite <- !app_assoc.
Qed.

Lemma insertion_loop_spec (rest r : list uint32) :
  insertion_loop (length rest) (length r) (reverse r ++ rest) =
  Some (reverse (foldl (λ r x, insert_desc x r) r rest)).
Proof.
  revert r. induction rest as [|x rest IH]; intros r.
  - simpl. by rewrite app_nil_r.
  - cbn [length insertion_loop foldl]. rewrite sift_spec. cbn [mbind option_bind].
    assert (S (length r) = length (insert_desc x r)) as ->.
    { clear. induction r as [|y r IH]; [done|]. simpl.
      destruct (bool_decide (x < y)); simpl; by rewrite <- ?IH. }
    apply IH.
Qed.

(** [sort.Sort] never panics and computes the insertion sort. *)
Lemma sort_Sort_spec (p : list uint32) :
  sort_Sort p = Some (reverse (foldl (λ r x, insert_desc x r) [] p)).
Proof.
  unfold sort_Sort, uint32Slice.Len. destruct p as [|x p]; [done|].
  cbn [length foldl insert_desc].
  replace (S (length p) - 1)%nat with (length p) by lia.
  apply (insertion_loop_spec p [x]).
Qed.

Lemma insert_desc_perm x r : insert_desc x r ≡ₚ x :: r.
Proof.
  induction r as [|y r IH]; [done|]. simpl.
  destruct (bool_decide (x < y)); [|done]. rewrite IH. apply Permutation_swap.
Qed.

Lemma insert_desc_sorted x r :
  StronglySorted (flip N.le) r → StronglySorted (flip N.le) (insert_desc x r).
Proof.
  induction 1 as [|y r Hs IH Hy]; simpl.
  - by repeat constructor.
  - case_bool_decide as Hxy.
    + constructor; [done|]. rewrite insert_desc_perm.
      constructor; [unfold flip; lia | done].
    + constructor; [by constructor|].
      constructor; [unfold flip; lia|].
      eapply Forall_impl; [exact Hy|]. unfold flip. intros z Hz. lia.
Qed.

Lemma insertion_sort_perm (p r : list uint32) :
  foldl (λ r x, insert_desc x r) r p ≡ₚ p ++ r.
Proof.
  revert r. induction p as [|x p IH]; intros r; [done|]. simpl.
  rewrite IH, insert_desc_perm. by rewrite Permutation_middle.
Qed.

Lemma insertion_sort_sorted (p r : list uint32) :
  StronglySorted (flip N.le) r →
  StronglySorted (flip N.le) (foldl (λ r x, insert_desc x r) r p).
Proof.
  revert r. induction p as [|x p IH]; intros r Hr; [done|]. simpl.
  by apply IH, insert_desc_sorted.
Qed.

Lemma StronglySorted_reverse_le (r : list uint32) :
  StronglySorted (flip N.le) r → StronglySorted N.le (reverse r).
Proof.
  induction 1 as [|y r Hs IH Hy]; [constructor|].
  rewrite reverse_cons. apply StronglySorted_app_2; [|done|by repeat constructor].
  intros x1 x2 Hx1 ->%list_elem_of_singleton. rewrite elem_of_reverse in Hx1.
  rewrite Forall_forall in Hy. by apply Hy.
Qed.

Lemma StronglySorted_le_lt (l : list uint32) :
  StronglySorted N.le l → NoDup l → StronglySorted N.lt l.
Proof.
  induction 1 as [|x l Hs IH Hx]; intros Hnd; [constructor|].
  apply NoDup_cons in Hnd as [Hnotin Hnd]. constructor; [by apply IH|].
  rewrite Forall_forall in Hx |- *. intros y Hy.
  assert (x ≠ y) by (by intros ->). specialize (Hx y Hy). lia.
Qed.

(** The result of [sort.Sort]: the same elements, in increasing order. *)
Lemma sort_Sort_sorted (p : list uint32) :
  ∃ q, sort_Sort p = Some q ∧ q ≡ₚ p ∧ StronglySorted N.le q.
Proof.
  eexists. split; [apply sort_Sort_spec|]. split.
  - rewrite reverse_Permutation, insertion_sort_perm. by rewrite app_nil_r.
  - apply StronglySorted_reverse_le, insertion_sort_sorted. constructor.
Qed.

(** ** Listing the registered values *)

Lemma foldl_snoc_app (l acc : list uint32) :
  foldl (λ values v, values ++ [v]) acc l = acc ++ l.
Proof.
  revert acc. induction l as [|x l IH]; intros acc; simpl.
  - by rewrite app_nil_r.
  - rewrite IH. by rewrite <- app_assoc.
Qed.

(** Whatever order the keys are visited in, the result holds the visited
    keys in increasing order. *)
Lemma Values_visiting_spec (visited : list uint32) :
  ∃ q, Values_visiting visited = Some q ∧ q ≡ₚ visited ∧ StronglySorted N.le q.
Proof.
  unfold Values_visiting. rewrite foldl_snoc_app. apply sort_Sort_sorted.
Qed.

Lemma keys_gm {K} `{Countable K} {V} (m : gomap K V) :
  GoMap.keys m = (map_to_list (gm m)).*1.
Proof. destruct m; [done|]. simpl. by rewrite map_to_list_empty. Qed.

Lemma elem_of_keys {K} `{Countable K} {V} (m : gomap K V) k :
  k ∈ GoMap.keys m ↔ is_Some (gm m !! k).
Proof.
  rewrite keys_gm, list_elem_of_fmap. split.
  - intros ([k' v] & -> & Hin%elem_of_map_to_list). by exists v.
  - intros [v Hv]. exists (k, v). split; [done|]. by apply elem_of_map_to_list.
Qed.

Lemma NoDup_keys {K} `{Countable K} {V} (m : gomap K V) : NoDup (GoMap.keys m).
Proof. rewrite keys_gm. apply NoDup_fst_map_to_list. Qed.

(** C9: [Values()] returns exactly the values passed to [RegisterValue]
    so far, without duplicates, in strictly increasing numeric order, and
    the same list whatever order the map is iterated in. *)
Theorem Values_sorted_registered `{Normalizer}
    (e0 : Enum) (l : list (uint32 * string)) :
  Enum_fresh e0 →
  ∃ e vs, RegisterValues e0 l = Some e ∧ Values (Some e) = Some vs ∧
    (∀ v, v ∈ vs ↔ v ∈ l.*1) ∧ NoDup vs ∧ StronglySorted N.lt vs ∧
    (∀ visited, visited ≡ₚ GoMap.keys (valuesToName e) →
       Values_visiting visited = Some vs).
Proof.
  intros Hf.
  destruct (RegisterValues_spec e0 l (or_introl Hf)) as (e & Hrun & _).
  destruct (built_tables e0 l e Hf Hrun) as (Hvn & _).
  destruct (Values_visiting_spec (GoMap.keys (valuesToName e)))
    as (vs & Hvs & Hperm & Hsorted).
  assert (NoDup vs) as Hnd by (rewrite Hperm; apply NoDup_keys).
  exists e, vs. repeat split; try done.
  - rewrite Hperm. intros [n Hn]%elem_of_keys. rewrite Hvn in Hn.
    apply inserts_lookup_Some in Hn as [Hn|[_ Hn]]; [|by rewrite lookup_empty in Hn].
    apply (list_elem_of_fmap_2 fst) in Hn. simpl in Hn.
    unfold name_of in Hn. rewrite <- list_fmap_compose in Hn. exact Hn.
  - intros Hv. rewrite Hperm. apply elem_of_keys. rewrite Hvn.
    destruct (inserts ∅ (name_of l) !! v) eqn:E; [done|].
    apply inserts_lookup_None in E as [E _]. exfalso. apply E.
    unfold name_of. by rewrite <- list_fmap_compose.
  - by apply StronglySorted_le_lt.
  - intros visited Hvis.
    destruct (Values_visiting_spec visited) as (vs' & -> & Hperm' & Hsorted').
    f_equal. apply (StronglySorted_unique N.le); [done..|].
    by rewrite Hperm', Hvis, Hperm.
Qed.

(** C8 (code bug): not every read operation is total on a nil receiver.
    On a nil [*Enum], [Name], [CanonicalName], [Value] and [Bitmask] each
    test [e == nil] and return their zero result, but [Values], which has
    no such test, panics; the nil pointer is the only receiver on which
    [Values] panics. *)
Theorem Values_alone_panics_on_nil (v : uint32) (name : string) :
  Name None v = ("", false) ∧ CanonicalName None v = ("", false) ∧
  Value None name = (0, false) ∧ Bitmask None = false ∧
  Values None = None ∧
  (∀ e : option Enum, Values e = None ↔ e = None).
Proof.
  repeat split; try reflexivity.
  - destruct e as [e|]; [|done]. simpl.
    destruct (Values_visiting_spec (GoMap.keys (valuesToName e))) as (vs & Hvs & _).
    by rewrite Hvs.
  - by intros ->.
Qed.

(** ** Hexadecimal notation *)

Lemma hex_digit_value_is_hex (c : ascii) :
  hex_digit_value c = None ↔ is_hex_digit c = false.
Proof.
  destruct c as [[] [] [] [] [] [] [] []]; vm_compute; split; congruence.
Qed.

Lemma hex_digit_value_hex_digit (d : N) : d < 16 → hex_digit_value (hex_digit d) = Some d.
Proof.
  intros Hd. rewrite <- (N2Nat.id d).
  assert (N.to_nat d < 16)%nat as Hk by lia. revert Hk. generalize (N.to_nat d).
  intros k Hk. do 16 (destruct k as [|k]; [reflexivity|]). lia.
Qed.

Lemma parse_hex_None (s : string) (acc : N) :
  parse_hex s acc = None ↔ has_non_hex s = true.
Proof.
  revert acc. induction s as [|c s IH]; intros acc; simpl; [done|].
  destruct (hex_digit_value c) as [d|] eqn:E; simpl.
  - rewrite IH. destruct (is_hex_digit c) eqn:Ec; [done|].
    apply hex_digit_value_is_hex in Ec. congruence.
  - apply hex_digit_value_is_hex in E. rewrite E. done.
Qed.

(** Reading with an accumulator computes the positional value. *)
Lemma parse_hex_value (s : string) (acc : N) :
  parse_hex s acc =
  v ← hex_value s; Some (acc * 16 ^ N.of_nat (String.length s) + v).
Proof.
  revert acc. induction s as [|c s IH]; intros acc; simpl.
  - f_equal. lia.
  - destruct (hex_digit_value c) as [d|]; simpl; [|done]. rewrite IH.
    destruct (hex_value s) as [v|]; simpl; [|done]. f_equal.
    rewrite Nat2N.inj_succ, N.pow_succ_r'. lia.
Qed.

Lemma parse_hex_app (s1 s2 : string) (acc : N) :
  parse_hex (s1 ++ s2)%string acc = parse_hex s1 acc ≫= parse_hex s2.
Proof.
  revert acc. induction s1 as [|c s1 IH]; intros acc; simpl; [done|].
  destruct (hex_digit_value c); simpl; [apply IH | done].
Qed.

Lemma String_length_app (s1 s2 : string) :
  String.length (s1 ++ s2)%string = (String.length s1 + String.length s2)%nat.
Proof. induction s1 as [|c s1 IH]; simpl; [done | by rewrite IH]. Qed.

Lemma length_format_hex (w : nat) (n : N) : String.length (format_hex w n) = w.
Proof.
  revert n. induction w as [|w IH]; intros n; simpl; [done|].
  rewrite String_length_app, IH. simpl. lia.
Qed.

(** Reading back the [w] digits written for [n] gives [n] modulo [16^w]. *)
Lemma parse_hex_format_hex (w : nat) (n acc : N) :
  parse_hex (format_hex w n) acc = Some (acc * 16 ^ N.of_nat w + n mod 16 ^ N.of_nat w).
Proof.
  revert n acc. induction w as [|w IH]; intros n acc.
  - simpl. f_equal. rewrite N.mod_1_r. lia.
  - cbn [format_hex]. rewrite parse_hex_app, IH. cbn [mbind option_bind parse_hex].
    rewrite hex_digit_value_hex_digit by (apply N.mod_lt; lia).
    cbn [mbind option_bind]. f_equal.
    rewrite Nat2N.inj_succ, N.pow_succ_r', (N.Div0.mod_mul_r n 16). lia.
Qed.

(** The six digits written for a tag denote the tag. *)
Lemma hex_value_format_hex (t : N) :
  t < 2 ^ 24 → hex_value (format_hex 6 t) = Some t.
Proof.
  intros Ht. pose proof (parse_hex_format_hex 6 t 0) as Hp.
  rewrite parse_hex_value, length_format_hex in Hp.
  destruct (hex_value (format_hex 6 t)) as [v|]; simpl in Hp; [|done].
  injection Hp as Hp. f_equal. rewrite N.mod_small in Hp by (simpl; lia). lia.
Qed.

Lemma hex_digits_of_spec (s digits : string) :
  hex_digits_of s = Some digits ↔ s = with_0x digits.
Proof.
  split; [|by intros ->].
  destruct s as [|c1 [|c2 s]]; simpl; try done.
  destruct (Ascii.eqb_spec c1 "0") as [->|]; [|done].
  destruct (Ascii.eqb_spec c2 "x") as [->|]; [|done].
  by intros [= ->].
Qed.

Lemma hex_formed_spec (s : string) :
  hex_formed s = true ↔ ∃ digits, s = with_0x digits.
Proof.
  unfold hex_formed. split.
  - destruct (hex_digits_of s) as [digits|] eqn:E; [|done].
    intros _. exists digits. by apply hex_digits_of_spec.
  - by intros (digits & ->).
Qed.

Lemma parse_0x_spec (width : nat) (digits : string) :
  parse_0x width (with_0x digits) =
  if decide (String.length digits = width) then hex_value digits else None.
Proof.
  unfold parse_0x, with_0x. cbn [hex_digits_of Ascii.eqb Bool.eqb andb mbind option_bind].
  destruct (Nat.eqb_spec (String.length digits) width) as [Heq|Hne].
  - rewrite decide_True by done. rewrite parse_hex_value.
    destruct (hex_value digits); simpl; [|done].
    by rewrite N.mul_0_l, N.add_0_l.
  - by rewrite decide_False.
Qed.

Lemma hex_value_None (s : string) : hex_value s = None ↔ has_non_hex s = true.
Proof.
  rewrite <- (parse_hex_None s 0), parse_hex_value.
  by destruct (hex_value s).
Qed.

Lemma parse_0x_None (width : nat) (s : string) :
  parse_0x width s = None ↔ ¬ hex_of_width width s.
Proof.
  destruct (hex_digits_of s) as [digits|] eqn:E.
  - apply hex_digits_of_spec in E as ->. rewrite parse_0x_spec.
    unfold hex_of_width. case_decide as Hlen.
    + rewrite hex_value_None. split.
      * intros Hbad (digits' & [= <-] & _ & Hok). congruence.
      * intros Hno. destruct (has_non_hex digits) eqn:Hd; [done|].
        exfalso. apply Hno. by exists digits.
    + split; [|done]. intros _ (digits' & [= <-] & Hlen' & _). done.
  - unfold parse_0x. rewrite E. split; [|done].
    intros _ (digits & Hs%hex_digits_of_spec & _). congruence.
Qed.

(** ** Formatting and parsing tags *)

(** C5: [FormatTag(t)] returns the canonical name registered for [t] when
    one is registered, and otherwise "0x" followed by the six hexadecimal
    digits of [t]. *)
Theorem FormatTag_canonical_or_hex `{Normalizer}
    (e0 : Enum) (l : list (Tag * string)) (r : Registry) (t : Tag) :
  Enum_fresh e0 → RegisterValues e0 l = Some (tags r) → t < 2 ^ 24 →
  (t ∈ l.*1 →
     ∃ n, (t, n) ∈ l ∧ CanonicalName (Some (tags r)) t = (n, true) ∧
          Registry_FormatTag r t = n) ∧
  (t ∉ l.*1 →
     ∃ digits, Registry_FormatTag r t = with_0x digits ∧
               String.length digits = 6%nat ∧ hex_value digits = Some t).
Proof.
  intros Hf Hrun Ht. unfold Registry_FormatTag, FormatTag, uint32_of_Tag. split.
  - intros Hin. destruct (built_canonical e0 l (tags r) t Hf Hrun Hin) as (n & Hn & Hc).
    exists n. rewrite CanonicalName_gm, Hc. done.
  - intros Hnotin. rewrite (built_canonical_None e0 l (tags r) t Hf Hrun Hnotin).
    exists (format_hex 6 t). split; [done|]. split; [apply length_format_hex|].
    by apply hex_value_format_hex.
Qed.

(** C4: [ParseTag] fails with the malformed-hex error exactly when the
    string begins with "0x" but is not "0x" followed by six hexadecimal
    digits (wrong length, or a character that is no hexadecimal digit);
    and it returns [TagNone], without error, for every string that does
    not begin with "0x" and is no registered canonical or normalized tag
    name. *)
Theorem ParseTag_malformed_or_unknown `{Normalizer}
    (e0 : Enum) (l : list (Tag * string)) (r : Registry) (s : string) :
  Enum_fresh e0 → RegisterValues e0 l = Some (tags r) →
  (Registry_ParseTag r s = Err ErrInvalidHexString ↔
     ∃ digits, s = with_0x digits ∧
       (String.length digits ≠ 6%nat ∨ has_non_hex digits = true)) ∧
  (hex_formed s = false →
   (∀ t n, (t, n) ∈ l → s ≠ n ∧ s ≠ NormalizeName n) →
   Registry_ParseTag r s = Ok TagNone).
Proof.
  intros Hf Hrun. unfold Registry_ParseTag, ParseTag. split.
  - destruct (hex_formed s) eqn:Hhex.
    + apply hex_formed_spec in Hhex as (digits & ->). rewrite parse_0x_spec.
      case_decide as Hlen.
      * destruct (hex_value digits) as [n|] eqn:E.
        -- split; [done|]. intros (digits' & [= <-] & [?|Hbad]); [done|].
           apply hex_value_None in Hbad. congruence.
        -- split; [|done]. intros _. exists digits. split; [done|].
           right. by apply hex_value_None.
      * split; [|done]. intros _. exists digits. split; [done|]. by left.
    + split.
      * by destruct (Value (Some (tags r)) s) as [v []].
      * intros (digits & -> & _). by rewrite (proj2 (hex_formed_spec _)) in Hhex by eauto.
  - intros -> Hs. by rewrite (Value_of_unknown_name e0 l (tags r) s Hf Hrun Hs).
Qed.

(** A tag name registered twice parses to the later tag, whatever the
    normalizer does. *)
Lemma ParseTag_of_reused_name `{Normalizer} :
  ∃ r1 r2, RegisterTag Registry_zero 1 "x" = Some r1 ∧
           RegisterTag r1 2 "x" = Some r2 ∧
           CanonicalName (Some (tags r2)) 1 = ("x", true) ∧
           Registry_ParseTag r2 (Registry_FormatTag r2 1) = Ok 2.
Proof.
  destruct Value_of_reused_name as (e & He & Hc & Hv).
  cbn [RegisterValues] in He.
  destruct (RegisterValue NewEnum 1 "x") as [e1|] eqn:E1; [|done].
  cbn [mbind option_bind] in He.
  destruct (RegisterValue e1 2 "x") as [e2|] eqn:E2; [|done].
  injection He as ->.
  exists (mkRegistry GoMap.nil e1 NewEnum), (mkRegistry GoMap.nil e NewEnum).
  unfold RegisterTag, Registry_zero, uint32_of_Tag. cbn [tags enums types].
  rewrite E1. cbn [mbind option_bind tags enums types]. rewrite E2.
  split; [done|]. split; [done|]. split; [exact Hc|].
  unfold Registry_FormatTag, FormatTag, uint32_of_Tag. cbn [tags]. rewrite Hc.
  unfold Registry_ParseTag, ParseTag. cbn [tags]. by rewrite Hv.
Qed.

(** C1 (amended): for every registered tag [t] whose canonical name [n]
    does not begin with "0x" and was not also registered, as a canonical
    name or as the normalized form of one, for a different tag,
    [ParseTag(FormatTag(t))] returns [t]; and for every string made of
    "0x" and exactly six hexadecimal digits, [ParseTag] returns the tag
    with that numeric value, registered or not. *)
Theorem ParseTag_FormatTag `{Normalizer}
    (e0 : Enum) (l : list (Tag * string)) (r : Registry) :
  Enum_fresh e0 → RegisterValues e0 l = Some (tags r) →
  (∀ t n, CanonicalName (Some (tags r)) t = (n, true) → hex_formed n = false →
     (∀ t' n', (t', n') ∈ l → n' = n ∨ NormalizeName n' = n → t' = t) →
     Registry_ParseTag r (Registry_FormatTag r t) = Ok t) ∧
  (∀ digits t, String.length digits = 6%nat → hex_value digits = Some t →
     Registry_ParseTag r (with_0x digits) = Ok t).
Proof.
  intros Hf Hrun. split.
  - intros t n Hc Hhex Hu.
    unfold Registry_FormatTag, FormatTag, uint32_of_Tag. rewrite Hc.
    unfold Registry_ParseTag, ParseTag. rewrite Hhex.
    rewrite (Value_of_own_name e0 l (tags r) t n); [done..| |done].
    by eapply built_canonical_inv.
  - intros digits t Hlen Hval. unfold Registry_ParseTag, ParseTag.
    rewrite (proj2 (hex_formed_spec _)) by eauto.
    by rewrite parse_0x_spec, decide_True, Hval.
Qed.

(** ** Parsing bitmask strings *)

Lemma parse_enum_component_Err (enumMap : option Enum) (c : string) (err : error) :
  parse_enum_component enumMap c = Err err → err = ErrUnregisteredEnumName.
Proof.
  unfold parse_enum_component. destruct (parse_0x 8 c); [done|].
  destruct (Value enumMap c) as [v []]; [done|]. by intros [= <-].
Qed.

Lemma parse_mask_unregistered (enumMap : option Enum) (cs : list string) (c : string) (acc : uint32) :
  c ∈ cs → parse_enum_component enumMap c = Err ErrUnregisteredEnumName →
  parse_mask enumMap cs acc = Err ErrUnregisteredEnumName.
Proof.
  intros Hin Hc. revert acc. induction cs as [|c' cs IH]; intros acc.
  - by apply not_elem_of_nil in Hin.
  - simpl. destruct (parse_enum_component enumMap c') as [v|err] eqn:E.
    + apply elem_of_cons in Hin as [->|Hin]; [congruence | by apply IH].
    + by rewrite (parse_enum_component_Err _ _ _ E).
Qed.

(** C6: when the [EnumMap] registered for [t] is a bitmask, [ParseEnum]
    fails with [ErrUnregisteredEnumName] whenever a component of the
    string is not a registered canonical or normalized name, unless that
    component is in hexadecimal form ("0x" and eight hexadecimal
    digits). *)
Theorem ParseEnum_unregistered_name `{Normalizer}
    (h : Heap) (r : Registry) (t : Tag)
    (e0 e : Enum) (l : list (uint32 * string)) (s c : string) :
  IsBitmask h r t = true →
  pointee h r (EnumForTag r t) = Some e →
  Enum_fresh e0 → RegisterValues e0 l = Some e →
  c ∈ split_on "|" s →
  (∀ v n, (v, n) ∈ l → c ≠ n ∧ c ≠ NormalizeName n) →
  ¬ hex_of_width 8 c →
  Registry_ParseEnum h r t s = Err ErrUnregisteredEnumName.
Proof.
  intros Hmask Hptr Hf Hrun Hin Hunknown Hnothex.
  unfold Registry_ParseEnum, ParseEnum. rewrite Hptr.
  assert (Bitmask (Some e) = true) as ->.
  { unfold IsBitmask in Hmask. unfold pointee in Hptr.
    destruct (EnumForTag r t); [done|]. by rewrite Hptr in Hmask. }
  apply (parse_mask_unregistered _ _ c); [done|].
  unfold parse_enum_component.
  rewrite (proj2 (parse_0x_None 8 c) Hnothex).
  by rewrite (Value_of_unknown_name e0 l e c Hf Hrun Hunknown).
Qed.

(** * Examples

    The theorems above at concrete registries, with the normalizer
    modelled from the spec. *)

Section examples.
Local Existing Instance spec_Normalizer.

Ltac fresh_enum := repeat split; reflexivity.
Ltac by_evaluation := vm_compute; reflexivity.
Ltac decide_elem := apply (bool_decide_unpack _); vm_compute; exact I.
Ltac each_registration H :=
  repeat (apply elem_of_cons in H as [H|H]; [injection H as -> ->|]);
  [..|by apply not_elem_of_nil in H].

Lemma FormatTag_examples :
  Registry_FormatTag example_registry 0x420001 = "Activation Date" ∧
  Registry_FormatTag example_registry 0x420002 = "0x420002" ∧
  Registry_ParseTag example_registry "CryptographicAlgorithm" = Ok 0x420028 ∧
  Registry_ParseTag example_registry "0x42002C" = Ok 0x42002c ∧
  Registry_ParseTag example_registry "0x42" = Err ErrInvalidHexString ∧
  Registry_ParseTag example_registry "Mystery" = Ok TagNone.
Proof. repeat split; by_evaluation. Qed.

Lemma Values_example :
  Values (Some example_mask) = Some [1; 2; 4] ∧
  Values_visiting [4; 1; 2] = Some [1; 2; 4] ∧
  sort_Sort [5; 3; 9; 1; 4] = Some [1; 3; 4; 5; 9].
Proof. repeat split; by_evaluation. Qed.

Lemma ParseEnum_examples :
  Registry_ParseEnum (heap example_store) (registry example_store) 0x42002c
    "Sign|Encrypt|0x00000010" = Ok 21 ∧
  Registry_ParseEnum (heap example_store) (registry example_store) 0x42002c
    "Sign|Wrap" = Err ErrUnregisteredEnumName.
Proof. repeat split; by_evaluation. Qed.

Lemma Name_is_normalized_CanonicalName_witness :
  ∃ n, (0x420028, n) ∈ example_registrations ∧
       CanonicalName (Some example_tags) 0x420028 = (n, true) ∧
       Name (Some example_tags) 0x420028 = (NormalizeName n, true).
Proof.
  apply (Name_is_normalized_CanonicalName NewEnum example_tags example_registrations).
  - fresh_enum.
  - by_evaluation.
  - decide_elem.
Defined.

(** C3, as first stated, fails: a value stays registered under a name
    that a later registration gave to another value. *)
Lemma Value_of_reused_name_counterexample :
  ∃ e, RegisterValues NewEnum [(1, "x"); (2, "x")] = Some e ∧
       (1, "x") ∈ [(1, "x"); (2, "x")] ∧
       CanonicalName (Some e) 1 = ("x", true) ∧
       Value (Some e) "x" = (2, true) ∧
       Value (Some e) "x" ≠ (1, true).
Proof.
  destruct Value_of_reused_name as (e & He & Hc & Hv).
  exists e. split; [exact He|]. split; [by left|]. split; [exact Hc|].
  split; [exact Hv|]. rewrite Hv. discriminate.
Qed.

Lemma Value_of_unambiguous_name_witness :
  Value (Some example_tags) "Activation Date" = (0x420001, true) ∧
  Value (Some example_tags) (NormalizeName "Activation Date") = (0x420001, true) ∧
  Value (Some example_tags) "Mystery" = (0, false).
Proof.
  destruct (Value_of_unambiguous_name NewEnum example_tags example_registrations)
    as [Hknown Hunknown]; [fresh_enum | by_evaluation |].
  split; [|split].
  - apply (Hknown 0x420001 "Activation Date"); [by left|].
    intros v' n' Hin Hn. each_registration Hin; [done|].
    vm_compute in Hn. by destruct Hn.
  - apply (Hknown 0x420001 "Activation Date"); [by left|].
    intros v' n' Hin Hn. each_registration Hin; [done|].
    vm_compute in Hn. by destruct Hn.
  - apply Hunknown. intros v n Hin. each_registration Hin; by vm_compute.
Defined.

Lemma last_registration_wins_witness :
  (∃ r1 r2,
     RegisterEnum example_registry 0x42002c EnumMap_nil = Some r1 ∧
     RegisterEnum r1 0x42002c (Tags example_registry) = Some r2 ∧
     EnumForTag r2 0x42002c = Tags example_registry) ∧
  (∃ e1 e2,
     RegisterValue example_mask 1 "Sign" = Some e1 ∧
     RegisterValue e1 1 "Sign Data" = Some e2 ∧
     Name (Some e2) 1 = (NormalizeName "Sign Data", true) ∧
     CanonicalName (Some e2) 1 = ("Sign Data", true)).
Proof.
  apply (last_registration_wins example_registry 0x42002c EnumMap_nil
           (Tags example_registry) example_mask 1 "Sign" "Sign Data").
  right. repeat split; discriminate.
Defined.

Lemma reads_of_nil_and_empty_witness :
  Name None 1 = ("", false) ∧ CanonicalName None 1 = ("", false) ∧
  Value None "Sign" = (0, false) ∧ Bitmask None = false ∧
  EnumForTag Registry_zero 0x42002c = EnumMap_nil ∧
  IsBitmask ∅ Registry_zero 0x42002c = false ∧
  IsEnum ∅ Registry_zero 0x42002c = false.
Proof. apply (reads_of_nil_and_empty 1 "Sign" ∅ Registry_zero 0x42002c). discriminate. Defined.

Lemma Values_sorted_registered_witness :
  ∃ e vs, RegisterValues NewBitmask [(4, "Encrypt"); (1, "Sign"); (4, "Encipher")] = Some e ∧
    Values (Some e) = Some vs ∧
    (∀ v, v ∈ vs ↔ v ∈ [(4, "Encrypt"); (1, "Sign"); (4, "Encipher")].*1) ∧
    NoDup vs ∧ StronglySorted N.lt vs ∧
    (∀ visited, visited ≡ₚ GoMap.keys (valuesToName e) →
       Values_visiting visited = Some vs).
Proof. apply (Values_sorted_registered NewBitmask). fresh_enum. Defined.

Lemma IsBitmask_IsEnum_partition_witness :
  let s' := default example_store (run example_store example_calls) in
  ¬ (IsBitmask (heap s') (registry s') 0x42002c = true ∧
     IsEnum (heap s') (registry s') 0x42002c = true) ∧
  (IsBitmask (heap s') (registry s') 0x42002c = true ∨
   IsEnum (heap s') (registry s') 0x42002c = true ↔
   ∃ m, GoMap.get (enums (registry s')) 0x42002c = Some m ∧ m ≠ EnumMap_nil).
Proof.
  apply (IsBitmask_IsEnum_partition example_store _ example_calls 0x42002c).
  by_evaluation.
Defined.

Lemma IsBitmask_IsEnum_example :
  let s' := default example_store (run example_store example_calls) in
  IsBitmask (heap s') (registry s') 0x42002c = true ∧
  IsEnum (heap s') (registry s') 0x42002c = false ∧
  IsBitmask (heap s') (registry s') 0x420028 = false ∧
  IsEnum (heap s') (registry s') 0x420028 = true ∧
  IsBitmask (heap s') (registry s') 0x420001 = false ∧
  IsEnum (heap s') (registry s') 0x420001 = false.
Proof. repeat split; by_evaluation. Qed.

Lemma FormatTag_canonical_or_hex_witness :
  (∃ n, (0x420001, n) ∈ example_registrations ∧
        CanonicalName (Some (tags example_registry)) 0x420001 = (n, true) ∧
        Registry_FormatTag example_registry 0x420001 = n) ∧
  (∃ digits, Registry_FormatTag example_registry 0x4200ab = with_0x digits ∧
             String.length digits = 6%nat ∧ hex_value digits = Some 0x4200ab).
Proof.
  split.
  - apply (FormatTag_canonical_or_hex NewEnum example_registrations example_registry 0x420001);
      [fresh_enum | by_evaluation | reflexivity | decide_elem].
  - apply (FormatTag_canonical_or_hex NewEnum example_registrations example_registry 0x4200ab);
      [fresh_enum | by_evaluation | reflexivity | decide_elem].
Defined.

Lemma ParseTag_malformed_or_unknown_witness :
  (Registry_ParseTag example_registry "0x42" = Err ErrInvalidHexString ↔
     ∃ digits, "0x42" = with_0x digits ∧
       (String.length digits ≠ 6%nat ∨ has_non_hex digits = true)) ∧
  Registry_ParseTag example_registry "Mystery" = Ok TagNone.
Proof.
  split.
  - apply (ParseTag_malformed_or_unknown NewEnum example_registrations example_registry "0x42");
      [fresh_enum | by_evaluation].
  - apply (ParseTag_malformed_or_unknown NewEnum example_registrations example_registry "Mystery");
      [fresh_enum | by_evaluation | reflexivity |].
    intros t n Hin. each_registration Hin; by vm_compute.
Defined.

(** C1, as first stated, fails: a tag stays registered under a name that
    a later registration gave to another tag, and the name then parses
    to the later tag; and a tag registered under a name that reads as
    hexadecimal parses to the number the name denotes. *)
Lemma ParseTag_FormatTag_counterexample :
  (∃ r1 r2, RegisterTag Registry_zero 1 "x" = Some r1 ∧
            RegisterTag r1 2 "x" = Some r2 ∧
            CanonicalName (Some (tags r2)) 1 = ("x", true) ∧
            Registry_ParseTag r2 (Registry_FormatTag r2 1) = Ok 2 ∧
            Registry_ParseTag r2 (Registry_FormatTag r2 1) ≠ Ok 1) ∧
  (∃ r, RegisterTag Registry_zero 5 "0x000007" = Some r ∧
        CanonicalName (Some (tags r)) 5 = ("0x000007", true) ∧
        Registry_ParseTag r (Registry_FormatTag r 5) = Ok 7 ∧
        Registry_ParseTag r (Registry_FormatTag r 5) ≠ Ok 5).
Proof.
  split.
  - destruct ParseTag_of_reused_name as (r1 & r2 & H1 & H2 & Hc & Hp).
    exists r1, r2. repeat split; [done..|]. rewrite Hp. discriminate.
  - eexists. split; [reflexivity|]. split; [by_evaluation|].
    split; [by_evaluation|]. vm_compute. discriminate.
Qed.

Lemma ParseTag_FormatTag_witness :
  Registry_ParseTag example_registry (Registry_FormatTag example_registry 0x420028)
    = Ok 0x420028 ∧
  Registry_ParseTag example_registry (with_0x "4200aB") = Ok 0x4200ab.
Proof.
  destruct (ParseTag_FormatTag NewEnum example_registrations example_registry)
    as [Hname Hhex]; [fresh_enum | by_evaluation |].
  split.
  - apply (Hname 0x420028 "Cryptographic Algorithm"); [by_evaluation | reflexivity |].
    intros t' n' Hin Hn. each_registration Hin; [|done].
    vm_compute in Hn. by destruct Hn.
  - apply Hhex; by_evaluation.
Defined.

Lemma run_total_witness :
  ∃ s', run example_store example_calls = Some s' ∧ Store_wf s'.
Proof.
  apply run_total.
  - split; [|split].
    + right. repeat split; discriminate.
    + by left.
    + intros l e Hl. unfold example_store in Hl. cbn [heap] in Hl.
      apply lookup_singleton_Some in Hl as [_ <-].
      right. repeat split; discriminate.
  - repeat constructor.
Defined.

Lemma classification_changes_only_by_RegisterEnum_witness :
  let s' := default example_store
              (exec example_store (CallRegisterValue (Some (HeapEnum 1)) 8 "Decrypt")) in
  IsBitmask (heap s') (registry s') 0x42002c =
    IsBitmask (heap example_store) (registry example_store) 0x42002c ∧
  IsEnum (heap s') (registry s') 0x42002c =
    IsEnum (heap example_store) (registry example_store) 0x42002c.
Proof.
  apply (classification_changes_only_by_RegisterEnum example_store _
           (CallRegisterValue (Some (HeapEnum 1)) 8 "Decrypt")).
  - by_evaluation.
  - discriminate.
Defined.

Lemma ParseEnum_unregistered_name_witness :
  Registry_ParseEnum (heap example_store) (registry example_store) 0x42002c
    "Sign|Wrap|0x00000010" = Err ErrUnregisteredEnumName.
Proof.
  apply (ParseEnum_unregistered_name (heap example_store) (registry example_store)
           0x42002c NewBitmask example_mask example_mask_names
           "Sign|Wrap|0x00000010" "Wrap").
  - by_evaluation.
  - by_evaluation.
  - fresh_enum.
  - by_evaluation.
  - decide_elem.
  - intros v n Hin. each_registration Hin; by vm_compute.
  - intros (digits & Hc & _). discriminate Hc.
Defined.
End examples.

(** * Further properties of [registry.go] *)

(** ** Lookups as functions of the registration history *)

Lemma inserts_last_assigned {K} `{Countable K} {V} (m : gmap K V) (l : list (K * V)) (k : K) :
  inserts m l !! k =
  match last_assigned l k with Some v => Some v | None => m !! k end.
Proof.
  revert m. induction l as [|[k' v] l IH]; intros m; [done|].
  change (inserts m ((k', v) :: l)) with (inserts (<[k' := v]> m) l).
  rewrite IH. simpl. destruct (last_assigned l k); [done|].
  rewrite lookup_insert. by destruct (decide (k' = k)).
Qed.

Lemma last_assigned_None {K} `{EqDecision K} {V} (l : list (K * V)) (k : K) :
  last_assigned l k = None ↔ k ∉ l.*1.
Proof.
  induction l as [|[k' v] l IH]; simpl.
  - split; [intros _; apply not_elem_of_nil | done].
  - rewrite not_elem_of_cons, <- IH. destruct (last_assigned l k).
    + split; [done | by intros [_ ?]].
    + destruct (decide (k' = k)) as [->|Hne].
      * split; [done | by intros [? _]].
      * split; [intros _; split; [congruence | done] | done].
Qed.

Lemma last_assigned_elem_of {K} `{EqDecision K} {V} (l : list (K * V)) (k : K) (v : V) :
  last_assigned l k = Some v → (k, v) ∈ l.
Proof.
  induction l as [|[k' v'] l IH]; simpl; [done|].
  destruct (last_assigned l k) as [v''|].
  - intros [= ->]. right. by apply IH.
  - destruct (decide (k' = k)) as [->|]; [|done]. intros [= ->]. by left.
Qed.

Lemma last_assigned_fmap {K} `{EqDecision K} {A B} (f : A → B) (l : list (K * A)) (k : K) :
  last_assigned ((λ kv, (kv.1, f kv.2)) <$> l) k = f <$> last_assigned l k.
Proof.
  induction l as [|[k' a] l IH]; [done|].
  rewrite fmap_cons. cbn [last_assigned fst snd]. rewrite IH.
  destruct (last_assigned l k); simpl; [done|]. by destruct (decide (k' = k)).
Qed.

(** X4: on every non-nil [Enum], whatever its state, [Values()] does not
    panic and returns, in strictly increasing order and whatever the
    iteration order of the map, exactly the values [v] for which
    [Name(v)] succeeds. *)
Theorem Values_lists_named_values (e : Enum) :
  ∃ vs, Values (Some e) = Some vs ∧ StronglySorted N.lt vs ∧
    (∀ v, v ∈ vs ↔ (Name (Some e) v).2 = true) ∧
    (∀ visited, visited ≡ₚ GoMap.keys (valuesToName e) →
       Values_visiting visited = Some vs).
Proof.
  destruct (Values_visiting_spec (GoMap.keys (valuesToName e)))
    as (vs & Hvs & Hperm & Hsorted).
  exists vs. split; [exact Hvs|]. split; [|split].
  - apply StronglySorted_le_lt; [done|]. rewrite Hperm. apply NoDup_keys.
  - intros v. rewrite Hperm, elem_of_keys, Name_gm.
    destruct (gm (valuesToName e) !! v); simpl.
    + split; [done | by eauto].
    + split; [by intros [? ?] | done].
  - intros visited Hvis.
    destruct (Values_visiting_spec visited) as (vs' & -> & Hperm' & Hsorted').
    f_equal. apply (StronglySorted_unique N.le); [done..|].
    by rewrite Hperm', Hvis, Hperm.
Qed.

Section history.
Context `{Normalizer}.
Implicit Types (e : Enum) (l : list (uint32 * string)) (v : uint32) (n s : string).

(** X5: [CanonicalName(v)] is the name of the most recent registration
    of [v] and [Name(v)] its normalized form, whatever was registered for
    other values in between; for a value never registered both return
    [("", false)]. *)
Theorem names_of_last_registration e0 e l v :
  Enum_fresh e0 → RegisterValues e0 l = Some e →
  CanonicalName (Some e) v = comma_ok "" (last_assigned l v) ∧
  Name (Some e) v = comma_ok "" (NormalizeName <$> last_assigned l v) ∧
  (v ∉ l.*1 →
     Name (Some e) v = ("", false) ∧ CanonicalName (Some e) v = ("", false)).
Proof.
  intros Hf Hrun. destruct (built_tables e0 l e Hf Hrun) as (Hvn & _ & Hc & _).
  assert (CanonicalName (Some e) v = comma_ok "" (last_assigned l v)) as HC.
  { rewrite CanonicalName_gm, Hc, inserts_last_assigned, lookup_empty.
    by destruct (last_assigned l v). }
  assert (Name (Some e) v = comma_ok "" (NormalizeName <$> last_assigned l v)) as HN.
  { rewrite Name_gm, Hvn, inserts_last_assigned, lookup_empty.
    unfold name_of. rewrite last_assigned_fmap.
    by destruct (last_assigned l v). }
  split; [exact HC|]. split; [exact HN|].
  intros Hv%last_assigned_None. by rewrite HN, HC, Hv.
Qed.

(** X6: [Value(s)] is the value of the most recent registration whose
    normalized name is [s]; only when no registered name normalizes to
    [s] is it the value of the most recent registration whose canonical
    name is [s]; and [(0, false)] when there is neither. *)
Theorem Value_of_history e0 e l s :
  Enum_fresh e0 → RegisterValues e0 l = Some e →
  Value (Some e) s =
  match last_assigned (value_of_name l) s with
  | Some v => (v, true)
  | None => comma_ok 0 (last_assigned (value_of_canonical l) s)
  end.
Proof.
  intros Hf Hrun. destruct (built_tables e0 l e Hf Hrun) as (_ & Hnv & _ & Hcv & _).
  rewrite Value_gm, Hnv, Hcv, !inserts_last_assigned, !lookup_empty.
  destruct (last_assigned (value_of_name l) s); [done|].
  by destruct (last_assigned (value_of_canonical l) s).
Qed.

(** X7: [Value] never invents: when [Value(s)] returns [(v, true)], the
    value [v] was registered under a name that is [s] or normalizes to
    [s]. *)
Theorem Value_is_registered e0 e l s v :
  Enum_fresh e0 → RegisterValues e0 l = Some e →
  Value (Some e) s = (v, true) →
  ∃ n, (v, n) ∈ l ∧ (n = s ∨ NormalizeName n = s).
Proof.
  intros Hf Hrun. destruct (built_tables e0 l e Hf Hrun) as (_ & Hnv & _ & Hcv & _).
  rewrite Value_gm, Hnv, Hcv.
  destruct (inserts ∅ (value_of_name l) !! s) as [v'|] eqn:E.
  - intros [= <-]. apply inserts_lookup_Some in E as [E|[_ E]].
    + apply elem_of_value_of_name in E as (n & Hin & Hn). eauto.
    + by rewrite lookup_empty in E.
  - destruct (inserts ∅ (value_of_canonical l) !! s) as [v'|] eqn:E'; [|done].
    intros [= <-]. apply inserts_lookup_Some in E' as [E'|[_ E']].
    + apply elem_of_value_of_canonical in E'. eauto.
    + by rewrite lookup_empty in E'.
Qed.

(** X8: stored names never dangle: for every registered value [v], both
    [Name(v)] and [CanonicalName(v)] are found again by [Value], which
    returns for each a value registered under that very name (not
    necessarily [v]). *)
Theorem Value_of_stored_names e0 e l v :
  Enum_fresh e0 → RegisterValues e0 l = Some e → v ∈ l.*1 →
  ∃ n v1 v2,
    CanonicalName (Some e) v = (n, true) ∧
    Name (Some e) v = (NormalizeName n, true) ∧
    Value (Some e) n = (v1, true) ∧
    Value (Some e) (NormalizeName n) = (v2, true) ∧
    (∃ n2, (v2, n2) ∈ l ∧ NormalizeName n2 = NormalizeName n).
Proof.
  intros Hf Hrun Hv.
  destruct (built_canonical e0 l e v Hf Hrun Hv) as (n & Hin & Hgm).
  destruct (built_tables e0 l e Hf Hrun) as (_ & Hnv & _ & Hcv & _).
  assert (is_Some (gm (nameToValue e) !! NormalizeName n)) as [v2 Hv2].
  { rewrite Hnv. destruct (inserts ∅ (value_of_name l) !! NormalizeName n) eqn:E;
      [by eauto|].
    apply inserts_lookup_None in E as [E _]. exfalso. apply E.
    apply list_elem_of_fmap. exists (NormalizeName n, v). split; [done|].
    apply elem_of_value_of_name. eauto. }
  assert (is_Some (gm (canonicalNamesToValue e) !! n)) as [v1 Hv1].
  { rewrite Hcv. destruct (inserts ∅ (value_of_canonical l) !! n) eqn:E; [by eauto|].
    apply inserts_lookup_None in E as [E _]. exfalso. apply E.
    apply list_elem_of_fmap. exists (n, v). split; [done|].
    by apply elem_of_value_of_canonical. }
  exists n, (default v1 (gm (nameToValue e) !! n)), v2.
  split; [by rewrite CanonicalName_gm, Hgm|].
  split; [by rewrite Name_gm, (built_names_agree e0 l e v Hf Hrun), Hgm|].
  split; [|split].
  - rewrite Value_gm, Hv1. by destruct (gm (nameToValue e) !! n).
  - by rewrite Value_gm, Hv2.
  - rewrite Hnv in Hv2. apply inserts_lookup_Some in Hv2 as [Hv2|[_ Hv2]].
    + by apply elem_of_value_of_name in Hv2.
    + by rewrite lookup_empty in Hv2.
Qed.
End history.

(** ** One registration *)

Section one_registration.
Context `{Normalizer}.
Implicit Types (e : Enum) (v : uint32) (name s : string).

(** X9: [RegisterValue(v, name)] touches nothing else and removes
    nothing: the names of every other value are unchanged, [Value] is
    unchanged on every string other than [name] and its normalized form,
    and a lookup that succeeded before still succeeds afterwards. *)
Theorem RegisterValue_frame e v name :
  Enum_wf e →
  ∃ e', RegisterValue e v name = Some e' ∧
    (∀ v', v' ≠ v →
       Name (Some e') v' = Name (Some e) v' ∧
       CanonicalName (Some e') v' = CanonicalName (Some e) v') ∧
    (∀ s, s ≠ name → s ≠ NormalizeName name →
       Value (Some e') s = Value (Some e) s) ∧
    (∀ v', (Name (Some e) v').2 = true → (Name (Some e') v').2 = true) ∧
    (∀ v', (CanonicalName (Some e) v').2 = true →
       (CanonicalName (Some e') v').2 = true) ∧
    (∀ s, (Value (Some e) s).2 = true → (Value (Some e') s).2 = true).
Proof.
  intros Hwf.
  destruct (RegisterValue_spec e v name Hwf) as (e' & He & _ & Hvn & Hnv & Hc & Hcv & _).
  exists e'. split; [exact He|]. repeat split.
  - by rewrite !Name_gm, Hvn, lookup_insert_ne.
  - by rewrite !CanonicalName_gm, Hc, lookup_insert_ne.
  - intros s Hs Hns. by rewrite !Value_gm, Hnv, Hcv, !lookup_insert_ne.
  - intros v'. rewrite !Name_gm, Hvn, lookup_insert.
    destruct (decide (v = v')); [done|]. done.
  - intros v'. rewrite !CanonicalName_gm, Hc, lookup_insert.
    destruct (decide (v = v')); [done|]. done.
  - intros s. rewrite !Value_gm, Hnv, Hcv, !lookup_insert.
    destruct (decide (NormalizeName name = s)); [done|].
    destruct (gm (nameToValue e) !! s); [done|].
    destruct (decide (name = s)); [done|]. done.
Qed.

(** X10: right after [RegisterValue(v, name)], [Value] returns [(v, true)]
    for the normalized name; it does so for [name] itself when [name] was
    unknown to [Value] before, or is its own normalized form. *)
Theorem Value_after_RegisterValue e v name :
  Enum_wf e →
  ∃ e', RegisterValue e v name = Some e' ∧
    Value (Some e') (NormalizeName name) = (v, true) ∧
    ((Value (Some e) name).2 = false ∨ NormalizeName name = name →
     Value (Some e') name = (v, true)).
Proof.
  intros Hwf.
  destruct (RegisterValue_spec e v name Hwf) as (e' & He & _ & _ & Hnv & _ & Hcv & _).
  exists e'. split; [exact He|]. split.
  - by rewrite Value_gm, Hnv, lookup_insert_eq.
  - rewrite !Value_gm, Hnv, Hcv. intros [Hnew|Hid].
    + rewrite lookup_insert. destruct (decide (NormalizeName name = name)); [done|].
      destruct (gm (nameToValue e) !! name); [done|]. by rewrite lookup_insert_eq.
    + by rewrite Hid, lookup_insert_eq.
Qed.
End one_registration.

(** ** Enums of tags *)

(** X11: [RegisterEnum(t, def)] never panics, makes [EnumForTag(t)]
    return [def], leaves [EnumForTag] unchanged at every other tag, and
    touches neither the tag table nor the type table. *)
Theorem RegisterEnum_EnumForTag (r : Registry) (t : Tag) (def : EnumMap) :
  ∃ r', RegisterEnum r t def = Some r' ∧
    EnumForTag r' t = def ∧
    (∀ t', t' ≠ t → EnumForTag r' t' = EnumForTag r t') ∧
    tags r' = tags r ∧ types r' = types r.
Proof.
  destruct (RegisterEnum_spec r t def) as (r' & Hr & He & Ht & Hy).
  exists r'. split; [exact Hr|]. split; [|split; [|done]].
  - rewrite EnumForTag_gm, He. simpl. by rewrite lookup_insert_eq.
  - intros t' Hne. rewrite !EnumForTag_gm, He. simpl. by rewrite lookup_insert_ne.
Qed.

(** X12: how [RegisterEnum(t, def)] classifies [t].  The nil interface
    unregisters: [t] is then neither bitmask nor enumeration.  A nil
    [*Enum] is not the nil interface: [t] then counts as an enumeration.
    A pointer to an [Enum] makes [t] a bitmask exactly when the [Enum]
    was made by [NewBitmask] (its flag is set). *)
Theorem classification_after_RegisterEnum
    (h : Heap) (r : Registry) (t : Tag) (def : EnumMap) :
  ∃ r', RegisterEnum r t def = Some r' ∧
    match def with
    | EnumMap_nil => IsBitmask h r' t = false ∧ IsEnum h r' t = false
    | EnumMap_ptr None => IsBitmask h r' t = false ∧ IsEnum h r' t = true
    | EnumMap_ptr (Some p) =>
        ∃ e, load h r (Some p) = Some e ∧
             IsBitmask h r' t = bitMask e ∧ IsEnum h r' t = negb (bitMask e)
    end.
Proof.
  destruct (RegisterEnum_spec r t def) as (r' & Hr & He & Ht & Hy).
  exists r'. split; [exact Hr|]. unfold IsBitmask, IsEnum.
  rewrite EnumForTag_gm, He. simpl. rewrite lookup_insert_eq. simpl.
  destruct def as [|[p|]]; [done| |done].
  exists (default NewEnum (load h r (Some p))).
  destruct p as [l| |]; simpl; by rewrite ?Ht, ?Hy.
Qed.

(** X13: the registry holds the pointer, not a copy: a value registered
    through a [*Enum] after the [Enum] was registered for a tag is seen by
    reads through [EnumForTag] of that tag, and of every tag that holds
    the same pointer. *)
Theorem registered_enum_is_shared `{Normalizer}
    (s : Store) (t : Tag) (p : EnumRef) (v : uint32) (name : string) :
  Store_wf s →
  EnumForTag (registry s) t = EnumMap_ptr (Some p) →
  ∃ s', exec s (CallRegisterValue (Some p) v name) = Some s' ∧
    EnumForTag (registry s') t = EnumMap_ptr (Some p) ∧
    Name (pointee (heap s') (registry s') (EnumForTag (registry s') t)) v
      = (NormalizeName name, true) ∧
    CanonicalName (pointee (heap s') (registry s') (EnumForTag (registry s') t)) v
      = (name, true).
Proof.
  intros (Htags & Htypes & Hheap) Ht.
  assert (∃ e, load (heap s) (registry s) (Some p) = Some e ∧ Enum_wf e) as (e & He & Hwf).
  { destruct p as [l| |]; simpl; eexists; (split; [reflexivity|]); try done.
    destruct (heap s !! l) as [e|] eqn:E; [by eapply Hheap | apply NewEnum_wf]. }
  destruct (RegisterValue_spec e v name Hwf) as (e' & Hreg & _ & Hvn & _ & Hc & _).
  assert (Name (Some e') v = (NormalizeName name, true)) as HN
    by by rewrite Name_gm, Hvn, lookup_insert_eq.
  assert (CanonicalName (Some e') v = (name, true)) as HC
    by by rewrite CanonicalName_gm, Hc, lookup_insert_eq.
  unfold exec, RegisterValue_ptr. rewrite He. cbn [mbind option_bind]. rewrite Hreg.
  cbn [mbind option_bind].
  destruct p as [l| |]; eexists; (split; [reflexivity|]); cbn [registry heap].
  - rewrite Ht. split; [done|]. cbn [pointee load]. by rewrite lookup_insert_eq.
  - assert (EnumForTag (mkRegistry (enums (registry s)) e' (types (registry s))) t
            = EnumMap_ptr (Some RegistryTags)) as -> by exact Ht.
    by split.
  - assert (EnumForTag (mkRegistry (enums (registry s)) (tags (registry s)) e') t
            = EnumMap_ptr (Some RegistryTypes)) as -> by exact Ht.
    by split.
Qed.

(** ** [uint32Slice] *)

Lemma StronglySorted_lookup_le (l : list uint32) (i j : nat) (a b : uint32) :
  StronglySorted N.le l → (i < j)%nat → l !! i = Some a → l !! j = Some b → a ≤ b.
Proof.
  intros Hs. revert i j. induction Hs as [|x l Hs IH Hx]; intros i j Hij Hi Hj; [done|].
  destruct j as [|j]; [lia|]. simpl in Hj. destruct i as [|i]; simpl in Hi.
  - injection Hi as <-. rewrite Forall_forall in Hx. apply Hx.
    by eapply list_elem_of_lookup_2.
  - apply (IH i j); [lia | done..].
Qed.

(** X14: [Swap(i, j)] on two indices in range exchanges the two elements
    and nothing else, so the slice keeps its length and its elements, and
    swapping again restores it; an index out of range makes [Swap] and
    [Less] panic. *)
Theorem Swap_exchanges (p : list uint32) (i j : nat) :
  ((i < uint32Slice.Len p)%nat ∧ (j < uint32Slice.Len p)%nat →
   ∃ p', uint32Slice.Swap p i j = Some p' ∧
     p' !! i = p !! j ∧ p' !! j = p !! i ∧
     (∀ k, k ≠ i → k ≠ j → p' !! k = p !! k) ∧
     uint32Slice.Len p' = uint32Slice.Len p ∧ p' ≡ₚ p ∧
     uint32Slice.Swap p' i j = Some p) ∧
  ((uint32Slice.Len p ≤ i)%nat ∨ (uint32Slice.Len p ≤ j)%nat →
   uint32Slice.Swap p i j = None ∧ uint32Slice.Less p i j = None).
Proof.
  unfold uint32Slice.Len, uint32Slice.Swap, uint32Slice.Less. split.
  - intros [Hi Hj].
    destruct (lookup_lt_is_Some_2 p i Hi) as [a Ha].
    destruct (lookup_lt_is_Some_2 p j Hj) as [b Hb].
    rewrite Ha, Hb. cbn [mbind option_bind]. eexists. split; [reflexivity|].
    assert (<[j:=a]> (<[i:=b]> p) !! i = Some b) as Hi'.
    { destruct (decide (i = j)) as [->|Hne].
      - rewrite list_lookup_insert_eq by (by rewrite length_insert). congruence.
      - rewrite list_lookup_insert_ne by done. by rewrite list_lookup_insert_eq. }
    assert (<[j:=a]> (<[i:=b]> p) !! j = Some a) as Hj'
      by (by rewrite list_lookup_insert_eq by (by rewrite length_insert)).
    split; [congruence|]. split; [congruence|]. split; [|split; [|split]].
    + intros k Hki Hkj. by rewrite !list_lookup_insert_ne.
    + by rewrite !length_insert.
    + by apply Permutation_insert_swap.
    + rewrite Hi', Hj'. cbn [mbind option_bind]. f_equal.
      destruct (decide (i = j)) as [->|Hne].
      * rewrite !list_insert_insert_eq. apply list_insert_id. congruence.
      * rewrite (list_insert_insert_ne _ j i) by done.
        rewrite list_insert_insert_eq, (list_insert_insert_ne _ i j) by done.
        rewrite list_insert_insert_eq, (list_insert_id _ i) by done.
        by apply list_insert_id.
  - intros [Hi|Hj].
    + rewrite (lookup_ge_None_2 p i) by done. done.
    + rewrite (lookup_ge_None_2 p j) by done. by destruct (p !! i).
Qed.

(** X15: sorting a slice through [Len], [Less] and [Swap] alone never
    indexes out of range, and leaves the same elements in an order where
    [Less(j, i)] is false whenever [i < j]; a second sort changes
    nothing. *)
Theorem sort_by_Less_and_Swap (p : list uint32) :
  ∃ q, sort_Sort p = Some q ∧ q ≡ₚ p ∧
    (∀ i j, (i < j)%nat → (j < uint32Slice.Len q)%nat →
       uint32Slice.Less q j i = Some false) ∧
    sort_Sort q = Some q.
Proof.
  destruct (sort_Sort_sorted p) as (q & Hq & Hperm & Hsorted).
  exists q. split; [exact Hq|]. split; [exact Hperm|]. split.
  - intros i j Hij Hj. unfold uint32Slice.Less, uint32Slice.Len in *.
    destruct (lookup_lt_is_Some_2 q j Hj) as [b Hb].
    destruct (lookup_lt_is_Some_2 q i ltac:(lia)) as [a Ha].
    rewrite Hb, Ha. cbn [mbind option_bind]. f_equal.
    apply bool_decide_eq_false.
    pose proof (StronglySorted_lookup_le q i j a b Hsorted Hij Ha Hb). lia.
  - destruct (sort_Sort_sorted q) as (q' & Hq' & Hperm' & Hsorted').
    rewrite Hq'. f_equal. by apply (StronglySorted_unique N.le).
Qed.

(** ** Tables of the registry *)

(** X16: [RegisterTag(t, name)] is seen through [Tags()], which returns
    the address of the tag table and not a copy: [Name(t)] is then the
    normalized name and [CanonicalName(t)] the name; the type table and
    the enums are untouched.  Likewise [RegisterType] and [Types()], with
    the tag table untouched. *)
Theorem RegisterTag_seen_through_Tags `{Normalizer}
    (h : Heap) (r : Registry) (t : N) (name : string) :
  Enum_wf (tags r) → Enum_wf (types r) →
  (∃ r', RegisterTag r t name = Some r' ∧
     Name (pointee h r' (Tags r')) t = (NormalizeName name, true) ∧
     CanonicalName (pointee h r' (Tags r')) t = (name, true) ∧
     pointee h r' (Types r') = pointee h r (Types r) ∧
     enums r' = enums r) ∧
  (∃ r', RegisterType r t name = Some r' ∧
     Name (pointee h r' (Types r')) t = (NormalizeName name, true) ∧
     CanonicalName (pointee h r' (Types r')) t = (name, true) ∧
     pointee h r' (Tags r') = pointee h r (Tags r) ∧
     enums r' = enums r).
Proof.
  intros Htags Htypes. split.
  - destruct (RegisterValue_spec (tags r) t name Htags)
      as (e' & He & _ & Hvn & _ & Hc & _).
    unfold RegisterTag, uint32_of_Tag. rewrite He. eexists. split; [reflexivity|].
    cbn [pointee Tags Types load tags types enums].
    rewrite Name_gm, CanonicalName_gm, Hvn, Hc, !lookup_insert_eq. done.
  - destruct (RegisterValue_spec (types r) t name Htypes)
      as (e' & He & _ & Hvn & _ & Hc & _).
    unfold RegisterType, uint32_of_Type. rewrite He. eexists. split; [reflexivity|].
    cbn [pointee Tags Types load tags types enums].
    rewrite Name_gm, CanonicalName_gm, Hvn, Hc, !lookup_insert_eq. done.
Qed.

(** ** Repeating and reordering registrations *)

Lemma Enum_allocated_eq (e1 e2 : Enum) :
  Enum_allocated e1 → Enum_allocated e2 →
  gm (valuesToName e1) = gm (valuesToName e2) →
  gm (nameToValue e1) = gm (nameToValue e2) →
  gm (valuesToCanonicalName e1) = gm (valuesToCanonicalName e2) →
  gm (canonicalNamesToValue e1) = gm (canonicalNamesToValue e2) →
  bitMask e1 = bitMask e2 → e1 = e2.
Proof.
  destruct e1 as [[a1|] [b1|] [c1|] [d1|] m1]; intros (? & ? & ? & ?); try done.
  destruct e2 as [[a2|] [b2|] [c2|] [d2|] m2]; intros (? & ? & ? & ?); try done.
  simpl. by intros -> -> -> -> ->.
Qed.

Section reordering.
Context `{Normalizer}.

(** X17: registering the same value under the same name a second time
    changes nothing. *)
Theorem RegisterValue_idempotent (e : Enum) (v : uint32) (name : string) :
  Enum_wf e →
  ∃ e1, RegisterValue e v name = Some e1 ∧ RegisterValue e1 v name = Some e1.
Proof.
  intros Hwf.
  destruct (RegisterValue_spec e v name Hwf)
    as (e1 & He1 & Hal1 & Hvn1 & Hnv1 & Hc1 & Hcv1 & Hb1).
  destruct (RegisterValue_spec e1 v name (or_intror Hal1))
    as (e2 & He2 & Hal2 & Hvn2 & Hnv2 & Hc2 & Hcv2 & Hb2).
  exists e1. split; [exact He1|]. rewrite He2. f_equal.
  apply Enum_allocated_eq; try done.
  - by rewrite Hvn2, Hvn1, insert_insert_eq.
  - by rewrite Hnv2, Hnv1, insert_insert_eq.
  - by rewrite Hc2, Hc1, insert_insert_eq.
  - by rewrite Hcv2, Hcv1, insert_insert_eq.
Qed.

(** X18: two registrations of different values under names with
    different normalized forms can be made in either order: the resulting
    [Enum] is the same. *)
Theorem RegisterValue_commute
    (e : Enum) (v1 v2 : uint32) (n1 n2 : string) :
  Enum_wf e → v1 ≠ v2 → NormalizeName n1 ≠ NormalizeName n2 →
  ∃ e',
    (RegisterValue e v1 n1 ≫= λ e1, RegisterValue e1 v2 n2) = Some e' ∧
    (RegisterValue e v2 n2 ≫= λ e2, RegisterValue e2 v1 n1) = Some e'.
Proof.
  intros Hwf Hv Hnn. assert (n1 ≠ n2) as Hn by (by intros ->).
  destruct (RegisterValue_spec e v1 n1 Hwf)
    as (e1 & He1 & Hal1 & Hvn1 & Hnv1 & Hc1 & Hcv1 & Hb1).
  destruct (RegisterValue_spec e1 v2 n2 (or_intror Hal1))
    as (e12 & He12 & Hal12 & Hvn12 & Hnv12 & Hc12 & Hcv12 & Hb12).
  destruct (RegisterValue_spec e v2 n2 Hwf)
    as (e2 & He2 & Hal2 & Hvn2 & Hnv2 & Hc2 & Hcv2 & Hb2).
  destruct (RegisterValue_spec e2 v1 n1 (or_intror Hal2))
    as (e21 & He21 & Hal21 & Hvn21 & Hnv21 & Hc21 & Hcv21 & Hb21).
  exists e12. rewrite He1, He2. cbn [mbind option_bind]. rewrite He12, He21.
  split; [done|]. f_equal. apply Enum_allocated_eq; try done.
  - rewrite Hvn21, Hvn2, Hvn12, Hvn1. by apply insert_insert_ne.
  - rewrite Hnv21, Hnv2, Hnv12, Hnv1. by apply insert_insert_ne.
  - rewrite Hc21, Hc2, Hc12, Hc1. by apply insert_insert_ne.
  - rewrite Hcv21, Hcv2, Hcv12, Hcv1. by apply insert_insert_ne.
  - congruence.
Qed.
End reordering.

(** * Further examples *)

Section further_examples.
Local Existing Instance spec_Normalizer.

Ltac fresh_enum := repeat split; reflexivity.
Ltac by_evaluation := vm_compute; reflexivity.
Ltac decide_elem := apply (bool_decide_unpack _); vm_compute; exact I.
Ltac allocated := right; repeat split; discriminate.

Lemma names_of_last_registration_witness :
  CanonicalName (Some example_tags) 0x420028
    = comma_ok "" (last_assigned example_registrations 0x420028) ∧
  Name (Some example_tags) 0x420028
    = comma_ok "" (NormalizeName <$> last_assigned example_registrations 0x420028) ∧
  Name (Some example_tags) 0x420099 = ("", false) ∧
  CanonicalName (Some example_tags) 0x420099 = ("", false).
Proof.
  split; [|split].
  - apply (names_of_last_registration NewEnum example_tags example_registrations 0x420028);
      [fresh_enum | by_evaluation].
  - apply (names_of_last_registration NewEnum example_tags example_registrations 0x420028);
      [fresh_enum | by_evaluation].
  - apply (names_of_last_registration NewEnum example_tags example_registrations 0x420099);
      [fresh_enum | by_evaluation | decide_elem].
Defined.

Lemma Value_of_history_witness :
  Value (Some example_tags) "CryptographicAlgorithm" =
  match last_assigned (value_of_name example_registrations) "CryptographicAlgorithm" with
  | Some v => (v, true)
  | None => comma_ok 0 (last_assigned (value_of_canonical example_registrations)
                          "CryptographicAlgorithm")
  end.
Proof.
  apply (Value_of_history NewEnum example_tags example_registrations);
    [fresh_enum | by_evaluation].
Defined.

Lemma Value_is_registered_witness :
  ∃ n, (0x420001, n) ∈ example_registrations ∧
       (n = "ActivationDate" ∨ NormalizeName n = "ActivationDate").
Proof.
  apply (Value_is_registered NewEnum example_tags example_registrations);
    [fresh_enum | by_evaluation | by_evaluation].
Defined.

Lemma Value_of_stored_names_witness :
  ∃ n v1 v2,
    CanonicalName (Some example_tags) 0x420001 = (n, true) ∧
    Name (Some example_tags) 0x420001 = (NormalizeName n, true) ∧
    Value (Some example_tags) n = (v1, true) ∧
    Value (Some example_tags) (NormalizeName n) = (v2, true) ∧
    (∃ n2, (v2, n2) ∈ example_registrations ∧ NormalizeName n2 = NormalizeName n).
Proof.
  apply (Value_of_stored_names NewEnum example_tags example_registrations);
    [fresh_enum | by_evaluation | decide_elem].
Defined.

Lemma RegisterValue_frame_witness :
  ∃ e', RegisterValue example_mask 8 "Decrypt" = Some e' ∧
    (∀ v', v' ≠ 8 →
       Name (Some e') v' = Name (Some example_mask) v' ∧
       CanonicalName (Some e') v' = CanonicalName (Some example_mask) v') ∧
    (∀ s, s ≠ "Decrypt" → s ≠ NormalizeName "Decrypt" →
       Value (Some e') s = Value (Some example_mask) s) ∧
    (∀ v', (Name (Some example_mask) v').2 = true → (Name (Some e') v').2 = true) ∧
    (∀ v', (CanonicalName (Some example_mask) v').2 = true →
       (CanonicalName (Some e') v').2 = true) ∧
    (∀ s, (Value (Some example_mask) s).2 = true → (Value (Some e') s).2 = true).
Proof. apply (RegisterValue_frame example_mask 8 "Decrypt"). allocated. Defined.

Lemma Value_after_RegisterValue_witness :
  ∃ e', RegisterValue example_mask 8 "Key Agreement" = Some e' ∧
    Value (Some e') (NormalizeName "Key Agreement") = (8, true) ∧
    ((Value (Some example_mask) "Key Agreement").2 = false ∨
     NormalizeName "Key Agreement" = "Key Agreement" →
     Value (Some e') "Key Agreement" = (8, true)).
Proof. apply (Value_after_RegisterValue example_mask 8 "Key Agreement"). allocated. Defined.

Lemma Value_after_RegisterValue_example :
  (Value (Some example_mask) "Key Agreement").2 = false ∧
  (e' ← RegisterValue example_mask 8 "Key Agreement";
   Some (Value (Some e') "Key Agreement", Value (Some e') "KeyAgreement"))
  = Some ((8, true), (8, true)).
Proof. split; by_evaluation. Qed.

Lemma registered_enum_is_shared_witness :
  ∃ s', exec example_store (CallRegisterValue (Some (HeapEnum 1)) 8 "Decrypt") = Some s' ∧
    EnumForTag (registry s') 0x42002c = EnumMap_ptr (Some (HeapEnum 1)) ∧
    Name (pointee (heap s') (registry s') (EnumForTag (registry s') 0x42002c)) 8
      = (NormalizeName "Decrypt", true) ∧
    CanonicalName (pointee (heap s') (registry s') (EnumForTag (registry s') 0x42002c)) 8
      = ("Decrypt", true).
Proof.
  apply (registered_enum_is_shared example_store 0x42002c (HeapEnum 1) 8 "Decrypt").
  - split; [|split].
    + allocated.
    + by left.
    + intros l e Hl. unfold example_store in Hl. cbn [heap] in Hl.
      apply lookup_singleton_Some in Hl as [_ <-]. allocated.
  - by_evaluation.
Defined.

Lemma Swap_exchanges_witness :
  ∃ p', uint32Slice.Swap [5; 3; 9] 0 2 = Some p' ∧
     p' !! 0%nat = [5; 3; 9] !! 2%nat ∧ p' !! 2%nat = [5; 3; 9] !! 0%nat ∧
     (∀ k, k ≠ 0%nat → k ≠ 2%nat → p' !! k = [5; 3; 9] !! k) ∧
     uint32Slice.Len p' = uint32Slice.Len [5; 3; 9] ∧ p' ≡ₚ [5; 3; 9] ∧
     uint32Slice.Swap p' 0 2 = Some [5; 3; 9].
Proof. apply (Swap_exchanges [5; 3; 9] 0 2). vm_compute. lia. Defined.

Lemma RegisterTag_seen_through_Tags_witness :
  ∃ r', RegisterTag example_registry 0x42002c "Cryptographic Usage Mask" = Some r' ∧
     Name (pointee ∅ r' (Tags r')) 0x42002c
       = (NormalizeName "Cryptographic Usage Mask", true) ∧
     CanonicalName (pointee ∅ r' (Tags r')) 0x42002c
       = ("Cryptographic Usage Mask", true) ∧
     pointee ∅ r' (Types r') = pointee ∅ example_registry (Types example_registry) ∧
     enums r' = enums example_registry.
Proof.
  apply (RegisterTag_seen_through_Tags ∅ example_registry 0x42002c
           "Cryptographic Usage Mask"); [allocated | by left].
Defined.

Lemma RegisterValue_idempotent_witness :
  ∃ e1, RegisterValue NewEnum 1 "Sign" = Some e1 ∧ RegisterValue e1 1 "Sign" = Some e1.
Proof. apply (RegisterValue_idempotent NewEnum 1 "Sign"). by left. Defined.

Lemma RegisterValue_commute_witness :
  ∃ e',
    (RegisterValue example_mask 8 "Decrypt" ≫= λ e1, RegisterValue e1 16 "Wrap Key")
      = Some e' ∧
    (RegisterValue example_mask 16 "Wrap Key" ≫= λ e2, RegisterValue e2 8 "Decrypt")
      = Some e'.
Proof.
  apply (RegisterValue_commute example_mask 8 16 "Decrypt" "Wrap Key");
    [allocated | done | by vm_compute].
Defined.
End further_examples.
